(** * Lucy: memory store, journal search and chat controller

    A shallow embedding of the state and the handlers of [App.tsx]
    (the [App] component) and of the data model of [types.ts], together
    with the properties of the memory store, of the journal view and of
    the chat controller.

    JavaScript strings are modelled as [string]; the built-in string
    methods are given on the ASCII range, where one character is one
    code unit. A property that would not carry over to texts beyond that
    range, because of what [trim] strips or of what [toLowerCase] maps
    there, is stated for texts of the range ([Js.isASCII]). *)

From Stdlib Require Import Ascii String.
From stdpp Require Import base option list strings gmap.

Set Warnings "-register-all".

(** ** String built-ins used by the component *)

Module Js.

(** [WhiteSpace] and [LineTerminator] code points of the ASCII range:
    TAB, LF, VT, FF, CR and SP. *)
Definition isWhiteSpace (a : ascii) : bool :=
  let n := nat_of_ascii a in
  (Nat.leb 9 n && Nat.leb n 13) || Nat.eqb n 32.

Fixpoint trimStart (s : string) : string :=
  match s with
  | EmptyString => EmptyString
  | String a s' => if isWhiteSpace a then trimStart s' else s
  end.

Fixpoint trimEnd (s : string) : string :=
  match s with
  | EmptyString => EmptyString
  | String a s' =>
      match trimEnd s' with
      | EmptyString =>
          if isWhiteSpace a then EmptyString else String a EmptyString
      | t => String a t
      end
  end.

(** [String.prototype.trim] on a text of the ASCII range. Beyond that
    range the built-in strips further code points (U+00A0, U+FEFF, the
    space separators, U+2028 and U+2029), which stay here. *)
Definition trim (s : string) : string := trimEnd (trimStart s).

Definition lowerChar (a : ascii) : ascii :=
  let n := nat_of_ascii a in
  if Nat.leb 65 n && Nat.leb n 90 then ascii_of_nat (n + 32) else a.

(** [String.prototype.toLowerCase] on a text of the ASCII range, where
    it maps the letters A to Z one by one. Beyond that range the built-in
    maps further letters, some by rules that depend on the neighbouring
    characters, and these stay as they are here. *)
Fixpoint toLowerCase (s : string) : string :=
  match s with
  | EmptyString => EmptyString
  | String a s' => String (lowerChar a) (toLowerCase s')
  end.

(** [String.prototype.includes]: [q] occurs in [s] at some offset. *)
Fixpoint includes (s q : string) : bool :=
  String.prefix q s ||
  match s with
  | EmptyString => false
  | String _ s' => includes s' q
  end.

(** The texts on which [trim] and [toLowerCase] above are the built-ins:
    every code unit is below 128. *)
Fixpoint isASCII (s : string) : bool :=
  match s with
  | EmptyString => true
  | String a s' => Nat.ltb (nat_of_ascii a) 128 && isASCII s'
  end.

(** Truthiness of a string value: only the empty string is falsy. *)
Definition truthy (s : string) : bool :=
  match s with EmptyString => false | _ => true end.

(** The value of [a || b] where [a] is a boolean and [b] is a boolean
    or [undefined] ([None]). *)
Definition or_undef (a : bool) (b : option bool) : option bool :=
  if a then Some true else b.

(** [ToBoolean] on a boolean-or-undefined value. *)
Definition toBoolean (v : option bool) : bool :=
  match v with Some b => b | None => false end.

End Js.

(** ** Data model ([types.ts]) *)

Module Category.
Inductive t := struggles | development | mindset.

#[global] Instance eq_dec : EqDecision t.
Proof. solve_decision. Defined.

(** The category as the property key it is. *)
Definition key (c : t) : string :=
  match c with
  | struggles => "struggles"
  | development => "development"
  | mindset => "mindset"
  end.
End Category.
Abbreviation Category := Category.t.

(** [details] is declared [string[]]; the journal reads it through
    [?.], so a record whose [details] is missing is [None] here. *)
Record MemoryValue := {
  description : string;
  details : option (list string)
}.

Record MemoryItem := {
  id : string;
  timestamp : string;
  value : MemoryValue
}.

Record MemoryStore := {
  struggles : list MemoryItem;
  development : list MemoryItem;
  mindset : list MemoryItem
}.

Inductive Role := user | model.

Record ChatMessage := {
  msg_id : string;
  role : Role;
  text : string;
  msg_timestamp : nat
}.

#[global] Instance Role_eq_dec : EqDecision Role.
Proof. solve_decision. Defined.

(** [memory[cat]] *)
Definition get (memory : MemoryStore) (cat : Category) : list MemoryItem :=
  match cat with
  | Category.struggles => struggles memory
  | Category.development => development memory
  | Category.mindset => mindset memory
  end.

(** [{ ...memory, [c]: items }] *)
Definition set (memory : MemoryStore) (c : Category)
    (items : list MemoryItem) : MemoryStore :=
  match c with
  | Category.struggles =>
      {| struggles := items; development := development memory;
         mindset := mindset memory |}
  | Category.development =>
      {| struggles := struggles memory; development := items;
         mindset := mindset memory |}
  | Category.mindset =>
      {| struggles := struggles memory; development := development memory;
         mindset := items |}
  end.

Definition DEFAULT_MEMORY : MemoryStore :=
  {| struggles := []; development := []; mindset := [] |}.

(** ** The journal view ([renderJournal]) *)

(** [Category | 'all'] *)
Inductive JournalFilter := all | only (c : Category).

Definition shows (journalFilter : JournalFilter) (cat : Category) : bool :=
  match journalFilter with
  | all => true
  | only c => bool_decide (c = cat)
  end.

(** The callback passed to [memory[cat].filter]: its value before the
    coercion done by [filter]. *)
Definition itemPredicate (journalSearchQuery : string) (item : MemoryItem)
    : option bool :=
  if negb (Js.truthy journalSearchQuery) then Some true
  else
    let q := Js.toLowerCase journalSearchQuery in
    let inDesc := Js.includes (Js.toLowerCase (description (value item))) q in
    let inDetails :=
      existsb (fun d => Js.includes (Js.toLowerCase d) q)
        <$> details (value item) in
    Js.or_undef inDesc inDetails.

Definition filteredItems (memory : MemoryStore) (journalSearchQuery : string)
    (cat : Category) : list MemoryItem :=
  List.filter (fun item => Js.toBoolean (itemPredicate journalSearchQuery item))
    (get memory cat).

Definition journalCategories : list Category :=
  [Category.development; Category.mindset; Category.struggles].

(** The cards of the journal in display order: one [MemoryCard] per
    filtered item, category by category. A category whose filtered list is
    empty contributes no card. *)
Definition renderJournal (memory : MemoryStore) (journalFilter : JournalFilter)
    (journalSearchQuery : string) : list (Category * MemoryItem) :=
  flat_map
    (fun cat => map (pair cat) (filteredItems memory journalSearchQuery cat))
    (List.filter (shows journalFilter) journalCategories).

(** The "No memories found" block below the cards. *)
Definition globalEmptyState (memory : MemoryStore) (journalSearchQuery : string)
    : bool :=
  Js.truthy journalSearchQuery &&
  forallb
    (fun cat =>
       Nat.eqb
         (length
            (List.filter
               (fun item =>
                  Js.toBoolean
                    (Js.or_undef
                       (Js.includes
                          (Js.toLowerCase (description (value item)))
                          (Js.toLowerCase journalSearchQuery))
                       (existsb
                          (fun d =>
                             Js.includes (Js.toLowerCase d)
                               (Js.toLowerCase journalSearchQuery))
                          <$> details (value item))))
               (get memory cat)))
         0)
    journalCategories.

(** The two query operations of the store are the journal view with and
    without a search text. *)
Definition filterByCategory (memory : MemoryStore) (f : JournalFilter)
    : list (Category * MemoryItem) :=
  renderJournal memory f EmptyString.

Definition search (memory : MemoryStore) (f : JournalFilter) (query : string)
    : list (Category * MemoryItem) :=
  renderJournal memory f query.

(** ** JSON values, [JSON.parse] and [JSON.stringify] *)

Module JSON.

(** A number keeps its literal text: the store holds no numbers and the
    component never computes with the ones it parses. *)
Inductive json :=
| JNull
| JBool (b : bool)
| JNumber (lexeme : string)
| JString (s : string)
| JArray (elements : list json)
| JObject (members : list (string * json)).

(** Own property read on an object: [None] is [undefined]. *)
Fixpoint lookup (k : string) (members : list (string * json)) : option json :=
  match members with
  | [] => None
  | (k', v) :: rest => if String.eqb k k' then Some v else lookup k rest
  end.

(** Defining a property: an existing key keeps its place. *)
Fixpoint define (k : string) (v : json) (members : list (string * json))
    : list (string * json) :=
  match members with
  | [] => [(k, v)]
  | (k', v') :: rest =>
      if String.eqb k k' then (k, v) :: rest else (k', v') :: define k v rest
  end.

(** *** Lexical helpers *)

Definition isJsonSpace (a : ascii) : bool :=
  let n := nat_of_ascii a in
  Nat.eqb n 32 || Nat.eqb n 9 || Nat.eqb n 10 || Nat.eqb n 13.

Fixpoint skipSpace (s : string) : string :=
  match s with
  | String a s' => if isJsonSpace a then skipSpace s' else s
  | EmptyString => EmptyString
  end.

Definition isDigit (a : ascii) : bool :=
  let n := nat_of_ascii a in Nat.leb 48 n && Nat.leb n 57.

Fixpoint digits (s : string) : string * string :=
  match s with
  | String a s' =>
      if isDigit a then let '(ds, rest) := digits s' in (String a ds, rest)
      else (EmptyString, s)
  | EmptyString => (EmptyString, EmptyString)
  end.

Definition hexValue (a : ascii) : option nat :=
  let n := nat_of_ascii a in
  if Nat.leb 48 n && Nat.leb n 57 then Some (n - 48)
  else if Nat.leb 65 n && Nat.leb n 70 then Some (n - 55)
  else if Nat.leb 97 n && Nat.leb n 102 then Some (n - 87)
  else None.

(** The code unit of a [\uXXXX] escape as UTF-8 text (a surrogate is
    kept as a unit of its own). *)
Definition unitText (n : nat) : string :=
  if Nat.ltb n 128 then String (ascii_of_nat n) EmptyString
  else if Nat.ltb n 2048 then
    String (ascii_of_nat (192 + n / 64))
      (String (ascii_of_nat (128 + n mod 64)) EmptyString)
  else
    String (ascii_of_nat (224 + n / 4096))
      (String (ascii_of_nat (128 + (n / 64) mod 64))
         (String (ascii_of_nat (128 + n mod 64)) EmptyString)).

Definition escapeText (a : ascii) : option string :=
  let n := nat_of_ascii a in
  let one (c : nat) := Some (String (ascii_of_nat c) EmptyString) in
  if Nat.eqb n 34 then one 34
  else if Nat.eqb n 92 then one 92
  else if Nat.eqb n 47 then one 47
  else if Nat.eqb n 98 then one 8
  else if Nat.eqb n 102 then one 12
  else if Nat.eqb n 110 then one 10
  else if Nat.eqb n 114 then one 13
  else if Nat.eqb n 116 then one 9
  else None.

(** The characters of a string literal after its opening quote, up to
    and including the closing quote. *)
Fixpoint parseChars (s : string) : option (string * string) :=
  match s with
  | EmptyString => None
  | String a s1 =>
      let n := nat_of_ascii a in
      if Nat.eqb n 34 then Some (EmptyString, s1)
      else if Nat.eqb n 92 then
        match s1 with
        | String e s2 =>
            if Nat.eqb (nat_of_ascii e) 117 then
              match s2 with
              | String h1 (String h2 (String h3 (String h4 s3))) =>
                  match hexValue h1, hexValue h2, hexValue h3, hexValue h4 with
                  | Some a1, Some a2, Some a3, Some a4 =>
                      match parseChars s3 with
                      | Some (str, rest) =>
                          Some (unitText (((a1 * 16 + a2) * 16 + a3) * 16 + a4)
                                  +:+ str, rest)
                      | None => None
                      end
                  | _, _, _, _ => None
                  end
              | _ => None
              end
            else
              match escapeText e, parseChars s2 with
              | Some t, Some (str, rest) => Some (t +:+ str, rest)
              | _, _ => None
              end
        | EmptyString => None
        end
      else if Nat.ltb n 32 then None
      else
        match parseChars s1 with
        | Some (str, rest) => Some (String a str, rest)
        | None => None
        end
  end.

(** [int]: a single zero, or a non-zero digit followed by digits. *)
Definition parseInt (s : string) : option (string * string) :=
  match s with
  | String a s' =>
      if Nat.eqb (nat_of_ascii a) 48 then Some (String a EmptyString, s')
      else if isDigit a then
        let '(ds, rest) := digits s' in Some (String a ds, rest)
      else None
  | EmptyString => None
  end.

Definition parseFrac (s : string) : option (string * string) :=
  match s with
  | String a s' =>
      if Nat.eqb (nat_of_ascii a) 46 then
        match digits s' with
        | (EmptyString, _) => None
        | (ds, rest) => Some (String a ds, rest)
        end
      else Some (EmptyString, s)
  | EmptyString => Some (EmptyString, s)
  end.

Definition parseExp (s : string) : option (string * string) :=
  match s with
  | String a s' =>
      if Nat.eqb (nat_of_ascii a) 101 || Nat.eqb (nat_of_ascii a) 69 then
        let '(sign, s'') :=
          match s' with
          | String b t =>
              if Nat.eqb (nat_of_ascii b) 43 || Nat.eqb (nat_of_ascii b) 45
              then (String b EmptyString, t) else (EmptyString, s')
          | EmptyString => (EmptyString, s')
          end in
        match digits s'' with
        | (EmptyString, _) => None
        | (ds, rest) => Some (String a (sign +:+ ds), rest)
        end
      else Some (EmptyString, s)
  | EmptyString => Some (EmptyString, s)
  end.

Definition parseNumber (s : string) : option (string * string) :=
  let '(sign, s0) :=
    match s with
    | String a s' =>
        if Nat.eqb (nat_of_ascii a) 45 then (String a EmptyString, s')
        else (EmptyString, s)
    | EmptyString => (EmptyString, s)
    end in
  match parseInt s0 with
  | Some (i, s1) =>
      match parseFrac s1 with
      | Some (f, s2) =>
          match parseExp s2 with
          | Some (e, s3) => Some (sign +:+ i +:+ f +:+ e, s3)
          | None => None
          end
      | None => None
      end
  | None => None
  end.

Definition expect (word : string) (v : json) (s : string)
    : option (json * string) :=
  if String.prefix word s
  then Some (v, String.substring (String.length word)
                  (String.length s - String.length word) s)
  else None.

(** *** The grammar of values

    [fuel] bounds the nesting; every call consumes a character before
    it descends, so the length of the text is enough. *)
Fixpoint parseValue (fuel : nat) (s : string) : option (json * string) :=
  match fuel with
  | O => None
  | S fuel =>
      match skipSpace s with
      | EmptyString => None
      | String a s1 as s0 =>
          match nat_of_ascii a with
          | 110 => expect "null" JNull s0
          | 116 => expect "true" (JBool true) s0
          | 102 => expect "false" (JBool false) s0
          | 34 =>
              match parseChars s1 with
              | Some (str, rest) => Some (JString str, rest)
              | None => None
              end
          | 91 =>
              match skipSpace s1 with
              | String b s2 =>
                  if Nat.eqb (nat_of_ascii b) 93 then Some (JArray [], s2)
                  else parseElements fuel s1 []
              | EmptyString => None
              end
          | 123 =>
              match skipSpace s1 with
              | String b s2 =>
                  if Nat.eqb (nat_of_ascii b) 125 then Some (JObject [], s2)
                  else parseMembers fuel s1 []
              | EmptyString => None
              end
          | _ =>
              match parseNumber s0 with
              | Some (lexeme, rest) => Some (JNumber lexeme, rest)
              | None => None
              end
          end
      end
  end

with parseElements (fuel : nat) (s : string) (acc : list json)
    : option (json * string) :=
  match fuel with
  | O => None
  | S fuel =>
      match parseValue fuel s with
      | Some (v, s1) =>
          match skipSpace s1 with
          | String a s2 =>
              if Nat.eqb (nat_of_ascii a) 44
              then parseElements fuel s2 (v :: acc)
              else if Nat.eqb (nat_of_ascii a) 93
              then Some (JArray (List.rev (v :: acc)), s2)
              else None
          | EmptyString => None
          end
      | None => None
      end
  end

with parseMembers (fuel : nat) (s : string) (acc : list (string * json))
    : option (json * string) :=
  match fuel with
  | O => None
  | S fuel =>
      match skipSpace s with
      | String q s1 =>
          if Nat.eqb (nat_of_ascii q) 34 then
            match parseChars s1 with
            | Some (k, s2) =>
                match skipSpace s2 with
                | String c s3 =>
                    if Nat.eqb (nat_of_ascii c) 58 then
                      match parseValue fuel s3 with
                      | Some (v, s4) =>
                          match skipSpace s4 with
                          | String a s5 =>
                              if Nat.eqb (nat_of_ascii a) 44
                              then parseMembers fuel s5 (define k v acc)
                              else if Nat.eqb (nat_of_ascii a) 125
                              then Some (JObject (define k v acc), s5)
                              else None
                          | EmptyString => None
                          end
                      | None => None
                      end
                    else None
                | EmptyString => None
                end
            | None => None
            end
          else None
      | EmptyString => None
      end
  end.

(** [JSON.parse]: [None] stands for the [SyntaxError] it throws. *)
Definition parse (s : string) : option json :=
  match parseValue (S (String.length s)) s with
  | Some (v, rest) =>
      match skipSpace rest with
      | EmptyString => Some v
      | _ => None
      end
  | None => None
  end.

(** *** Serialisation *)

Definition hexDigit (n : nat) : ascii :=
  if Nat.ltb n 10 then ascii_of_nat (48 + n) else ascii_of_nat (87 + n).

Definition quoteChar (a : ascii) : string :=
  let n := nat_of_ascii a in
  let bs := String (ascii_of_nat 92) in
  if Nat.eqb n 34 || Nat.eqb n 92 then bs (String a EmptyString)
  else if Nat.eqb n 8 then bs "b"
  else if Nat.eqb n 12 then bs "f"
  else if Nat.eqb n 10 then bs "n"
  else if Nat.eqb n 13 then bs "r"
  else if Nat.eqb n 9 then bs "t"
  else if Nat.ltb n 32 then
    bs (String "u" (String "0" (String "0"
      (String (hexDigit (n / 16))
         (String (hexDigit (n mod 16)) EmptyString)))))
  else String a EmptyString.

Fixpoint quoteChars (s : string) : string :=
  match s with
  | EmptyString => EmptyString
  | String a s' => quoteChar a +:+ quoteChars s'
  end.

Definition quote (s : string) : string :=
  let dq := String (ascii_of_nat 34) EmptyString in
  dq +:+ quoteChars s +:+ dq.

Fixpoint join (parts : list string) : string :=
  match parts with
  | [] => EmptyString
  | [p] => p
  | p :: rest => p +:+ "," +:+ join rest
  end.

(** [JSON.stringify] on a JSON value *)
Fixpoint stringify (v : json) : string :=
  match v with
  | JNull => "null"
  | JBool true => "true"
  | JBool false => "false"
  | JNumber lexeme => lexeme
  | JString s => quote s
  | JArray elements => "[" +:+ join (map stringify elements) +:+ "]"
  | JObject members =>
      "{" +:+
      join (map (fun kv => quote (fst kv) +:+ ":" +:+ stringify (snd kv)) members)
      +:+ "}"
  end.

(** *** Values written from a store

    [size] bounds the fuel a value needs; a [canonical] value has no
    number and no key twice in an object, as every value [stringify] is
    applied to by the component. *)

Fixpoint size (v : json) : nat :=
  match v with
  | JArray elements => S (list_sum (map (fun e => S (size e)) elements))
  | JObject members =>
      S (list_sum (map (fun kv => S (size (snd kv))) members))
  | _ => 1
  end.

Fixpoint canonical (v : json) : Prop :=
  match v with
  | JNumber _ => False
  | JArray elements => fold_right (fun e P => canonical e /\ P) True elements
  | JObject members =>
      NoDup (map fst members) /\
      fold_right (fun kv P => canonical (snd kv) /\ P) True members
  | _ => True
  end.

(** The first character of a serialised value opens a literal, a string,
    an array or an object. *)
Definition opens (a : ascii) : Prop :=
  isJsonSpace a = false /\ nat_of_ascii a <> 93 /\ nat_of_ascii a <> 125.

(** A value is read back: parsing its text, whatever follows, gives the
    value and what follows, with any fuel from its size on. *)
Definition readsBack (v : json) : Prop :=
  canonical v ->
  forall fuel rest,
    size v <= fuel -> parseValue fuel (stringify v +:+ rest) = Some (v, rest).

End JSON.

Import JSON (json, JNull, JBool, JNumber, JString, JArray, JObject).

(** ** Errors and results *)

Inductive Error := SyntaxError | TypeError | ValidationError.

Inductive outcome (A : Type) :=
| Returns (a : A)
| Raises (e : Error).
Arguments Returns {A} a.
Arguments Raises {A} e.

Definition bind {A B : Type} (x : outcome A) (k : A -> outcome B) : outcome B :=
  match x with
  | Returns a => k a
  | Raises e => Raises e
  end.

(** ** The store as the JSON value that is written and read back *)

Definition valueJson (v : MemoryValue) : json :=
  JObject
    (("description", JString (description v)) ::
     match details v with
     | Some ds => [("details", JArray (map JString ds))]
     | None => []
     end).

Definition itemJson (item : MemoryItem) : json :=
  JObject
    [("id", JString (id item));
     ("timestamp", JString (timestamp item));
     ("value", valueJson (value item))].

Definition storeJson (m : MemoryStore) : json :=
  JObject
    [("struggles", JArray (map itemJson (struggles m)));
     ("development", JArray (map itemJson (development m)));
     ("mindset", JArray (map itemJson (mindset m)))].

(** Reading a parsed value at the declared types; [None] when the value
    does not have the shape of the interface. *)
Definition asString (v : json) : option string :=
  match v with JString s => Some s | _ => None end.

Definition asDetails (v : option json) : option (option (list string)) :=
  match v with
  | None | Some JNull => Some None
  | Some (JArray elements) => Some <$> mapM asString elements
  | Some _ => None
  end.

Definition asValue (v : json) : option MemoryValue :=
  match v with
  | JObject members =>
      d ← JSON.lookup "description" members ≫= asString;
      ds ← asDetails (JSON.lookup "details" members);
      Some {| description := d; details := ds |}
  | _ => None
  end.

Definition asItem (v : json) : option MemoryItem :=
  match v with
  | JObject members =>
      i ← JSON.lookup "id" members ≫= asString;
      t ← JSON.lookup "timestamp" members ≫= asString;
      x ← JSON.lookup "value" members ≫= asValue;
      Some {| id := i; timestamp := t; value := x |}
  | _ => None
  end.

Definition asItems (v : option json) : option (list MemoryItem) :=
  match v with
  | Some (JArray elements) => mapM asItem elements
  | _ => None
  end.

Definition asMemoryStore (v : json) : option MemoryStore :=
  match v with
  | JObject members =>
      s ← asItems (JSON.lookup "struggles" members);
      d ← asItems (JSON.lookup "development" members);
      m ← asItems (JSON.lookup "mindset" members);
      Some {| struggles := s; development := d; mindset := m |}
  | _ => None
  end.

(** ** Persistence and initialisation (the first effect of [App]) *)

(** The three state cells the effect writes, as the values they hold at
    run time. *)
Record Cells := {
  memoryCell : json;
  themeCell : string;
  permissionsCell : json
}.

Definition initialCells : Cells :=
  {| memoryCell := storeJson DEFAULT_MEMORY;
     themeCell := "light";
     permissionsCell :=
       JObject [("mic", JBool false); ("location", JBool false);
                ("activity", JBool false); ("autoUpdate", JBool false)] |}.

(** [localStorage.getItem] is the lookup of a [gmap]; [null] is [None]. *)
Definition loadMemory (localStorage : gmap string string) (cells : Cells)
    : outcome Cells :=
  match localStorage !! "lucy_memory" with
  | Some storedMemory =>
      if Js.truthy storedMemory then
        match JSON.parse storedMemory with
        | Some v =>
            Returns {| memoryCell := v; themeCell := themeCell cells;
                       permissionsCell := permissionsCell cells |}
        | None => Raises SyntaxError
        end
      else Returns cells
  | None => Returns cells
  end.

Definition loadTheme (localStorage : gmap string string) (cells : Cells)
    : outcome Cells :=
  match localStorage !! "lucy_theme" with
  | Some storedTheme =>
      if Js.truthy storedTheme then
        Returns {| memoryCell := memoryCell cells; themeCell := storedTheme;
                   permissionsCell := permissionsCell cells |}
      else Returns cells
  | None => Returns cells
  end.

Definition loadPermissions (localStorage : gmap string string) (cells : Cells)
    : outcome Cells :=
  match localStorage !! "lucy_permissions" with
  | Some storedPerms =>
      if Js.truthy storedPerms then
        match JSON.parse storedPerms with
        | Some v =>
            Returns {| memoryCell := memoryCell cells;
                       themeCell := themeCell cells; permissionsCell := v |}
        | None => Raises SyntaxError
        end
      else Returns cells
  | None => Returns cells
  end.

Definition persistenceEffect (localStorage : gmap string string)
    (cells : Cells) : outcome Cells :=
  bind (loadMemory localStorage cells) (fun c1 =>
  bind (loadTheme localStorage c1) (fun c2 =>
  loadPermissions localStorage c2)).

(** The store read at start-up: the memory cell after the effect, run on
    the initial state of the component. *)
Definition load (localStorage : gmap string string) : outcome json :=
  bind (loadMemory localStorage initialCells) (fun c => Returns (memoryCell c)).

(** ** The state of the component *)

(** [pending] holds the calls of [sendMessageToLucy] that have not settled
    yet, each with its two arguments. *)
Record AppState := {
  memory : MemoryStore;
  chatMessages : list ChatMessage;
  inputMessage : string;
  isChatLoading : bool;
  localStorage : gmap string string;
  pending : list (string * MemoryStore)
}.

Definition welcome (now : nat) : ChatMessage :=
  {| msg_id := "welcome"; role := model;
     text := "Systems online. Lucy ready."; msg_timestamp := now |}.

Definition initialState (now : nat) (storage : gmap string string) : AppState :=
  {| memory := DEFAULT_MEMORY;
     chatMessages := [welcome now];
     inputMessage := EmptyString;
     isChatLoading := false;
     localStorage := storage;
     pending := [] |}.

(** ** Adding a record ([onSave]) *)

Definition newItem (uuid now d : string) (det : list string) : MemoryItem :=
  {| id := uuid; timestamp := now;
     value := {| description := d; details := Some det |} |}.

(** The [onSave] callback handed to the entry form. [uuid] is the result
    of [crypto.randomUUID()] and [now] of [new Date().toISOString()]. *)
Definition onSave (uuid now : string) (c : Category) (d : string)
    (det : list string) (st : AppState) : AppState :=
  let updated := set (memory st) c (newItem uuid now d det :: get (memory st) c) in
  {| memory := updated;
     chatMessages := chatMessages st;
     inputMessage := inputMessage st;
     isChatLoading := isChatLoading st;
     localStorage :=
       <["lucy_memory" := JSON.stringify (storeJson updated)]> (localStorage st);
     pending := pending st |}.

(** Modelled from the spec: the record-entry form
    ([components/MemoryEntryModal]) is not among the sources; by the record
    model of the specification each entry of the details is trimmed and
    empty entries are dropped. *)
Definition cleanDetails (det : list string) : list string :=
  List.filter Js.truthy (map Js.trim det).

(** Modelled from the spec: the record-entry form
    ([components/MemoryEntryModal]), which decides whether [onSave] is
    called, is not among the sources. By the specification the description
    must be non-empty after trimming, else the operation fails with
    [ValidationError] and changes nothing; otherwise the record is created
    by [onSave] and returned. *)
Definition addRecord (uuid now : string) (c : Category) (d : string)
    (det : list string) (st : AppState) : outcome MemoryItem * AppState :=
  if Js.truthy (Js.trim d)
  then (Returns (newItem uuid now d (cleanDetails det)),
        onSave uuid now c d (cleanDetails det) st)
  else (Raises ValidationError, st).

(** [queryAll] *)
Definition queryAll (st : AppState) : MemoryStore := memory st.

(** ** The chat controller ([handleSendMessage]) *)

Inductive BackendResult :=
| Resolved (responseText : string)
| Rejected (reason : string).

Definition modelMessage (uuid : string) (now : nat) (t : string) : ChatMessage :=
  {| msg_id := uuid; role := model; text := t; msg_timestamp := now |}.

(** [handleSendMessage] up to its [await]. [uuid] and [now] are the
    results of [crypto.randomUUID()] and [Date.now()]. *)
Definition handleSendMessage (uuid : string) (now : nat) (st : AppState)
    : AppState :=
  if negb (Js.truthy (Js.trim (inputMessage st))) || isChatLoading st then st
  else
    let userMsg :=
      {| msg_id := uuid; role := user; text := inputMessage st;
         msg_timestamp := now |} in
    {| memory := memory st;
       chatMessages := chatMessages st ++ [userMsg];
       inputMessage := EmptyString;
       isChatLoading := true;
       localStorage := localStorage st;
       pending := pending st ++ [(text userMsg, memory st)] |}.

(** [handleSendMessage] from the point where the awaited call settles:
    the rest of [try], or [catch], and then [finally]. *)
Definition handleSendMessage_settled (result : BackendResult) (uuid : string)
    (now : nat) (st : AppState) : AppState :=
  let reply :=
    match result with
    | Resolved responseText => modelMessage uuid now responseText
    | Rejected _ => modelMessage uuid now "Connection Error."
    end in
  {| memory := memory st;
     chatMessages := chatMessages st ++ [reply];
     inputMessage := inputMessage st;
     isChatLoading := false;
     localStorage := localStorage st;
     pending := tail (pending st) |}.

(** [onChange] of the message input *)
Definition setInputMessage (t : string) (st : AppState) : AppState :=
  {| memory := memory st;
     chatMessages := chatMessages st;
     inputMessage := t;
     isChatLoading := isChatLoading st;
     localStorage := localStorage st;
     pending := pending st |}.

(** [setMemory] with the store read at start-up *)
Definition setMemory (m : MemoryStore) (st : AppState) : AppState :=
  {| memory := m;
     chatMessages := chatMessages st;
     inputMessage := inputMessage st;
     isChatLoading := isChatLoading st;
     localStorage := localStorage st;
     pending := pending st |}.

(** [sendUserMessage(text)]: the text is entered and sent. *)
Definition sendUserMessage (t uuid : string) (now : nat) (st : AppState)
    : AppState :=
  handleSendMessage uuid now (setInputMessage t st).

(** What can happen to the mounted component: typing, sending, a pending
    call settling, a record saved, the stored memory loaded. A call can
    settle only while it is pending. *)
Inductive Event :=
| Typed (t : string)
| Send (uuid : string) (now : nat)
| Settled (result : BackendResult) (uuid : string) (now : nat)
| Saved (uuid now : string) (c : Category) (d : string) (det : list string)
| Loaded (m : MemoryStore).

Definition step (st : AppState) (ev : Event) : option AppState :=
  match ev with
  | Typed t => Some (setInputMessage t st)
  | Send uuid now => Some (handleSendMessage uuid now st)
  | Settled result uuid now =>
      match pending st with
      | [] => None
      | _ :: _ => Some (handleSendMessage_settled result uuid now st)
      end
  | Saved uuid now c d det => Some (onSave uuid now c d det st)
  | Loaded m => Some (setMemory m st)
  end.

Fixpoint run (st : AppState) (evs : list Event) : option AppState :=
  match evs with
  | [] => Some st
  | ev :: rest =>
      match step st ev with
      | Some st' => run st' rest
      | None => None
      end
  end.

Definition reachable (st : AppState) : Prop :=
  exists now storage evs, run (initialState now storage) evs = Some st.

(** Roles in pairs: a [user] message and then a [model] message. *)
Fixpoint alternates (roles : list Role) : bool :=
  match roles with
  | [] => true
  | user :: model :: rest => alternates rest
  | _ => false
  end.

(** ** The journal filter on run-time values

    The declared types are not checked when stored text is read back, so
    the callback of [memory[cat].filter] may meet records of any shape.
    This is the same code as [itemPredicate] and [filteredItems] above,
    evaluated on JSON values, where a property read or a method call can
    raise [TypeError]. [None] is [undefined]. *)

Module Runtime.

(** [v.k], for a key that no prototype defines. *)
Definition getProp (v : option json) (k : string) : outcome (option json) :=
  match v with
  | None | Some JNull => Raises TypeError
  | Some (JObject members) => Returns (JSON.lookup k members)
  | Some _ => Returns None
  end.

(** [v.toLowerCase()]: only a string has the method. *)
Definition toLowerCase (v : option json) : outcome string :=
  match v with
  | Some (JString s) => Returns (Js.toLowerCase s)
  | _ => Raises TypeError
  end.

(** [elements.some(d => d.toLowerCase().includes(q))] *)
Fixpoint some (q : string) (elements : list json) : outcome bool :=
  match elements with
  | [] => Returns false
  | d :: rest =>
      bind (toLowerCase (Some d)) (fun dl =>
      if Js.includes dl q then Returns true else some q rest)
  end.

(** [details?.some(...)]: [undefined] when [details] is [undefined] or
    [null]; only an array has the method. *)
Definition optionalSome (q : string) (v : option json)
    : outcome (option bool) :=
  match v with
  | None | Some JNull => Returns None
  | Some (JArray elements) => bind (some q elements) (fun b => Returns (Some b))
  | Some _ => Raises TypeError
  end.

Definition itemPredicate (journalSearchQuery : string) (item : json)
    : outcome (option bool) :=
  if negb (Js.truthy journalSearchQuery) then Returns (Some true)
  else
    let q := Js.toLowerCase journalSearchQuery in
    bind (getProp (Some item) "value") (fun v =>
    bind (getProp v "description") (fun d =>
    bind (toLowerCase d) (fun dl =>
    let inDesc := Js.includes dl q in
    bind (getProp v "details") (fun ds =>
    bind (optionalSome q ds) (fun inDetails =>
    Returns (Js.or_undef inDesc inDetails)))))).

(** [items.filter(callback)] *)
Fixpoint filter (journalSearchQuery : string) (items : list json)
    : outcome (list json) :=
  match items with
  | [] => Returns []
  | item :: rest =>
      bind (itemPredicate journalSearchQuery item) (fun keep =>
      bind (filter journalSearchQuery rest) (fun kept =>
      Returns (if Js.toBoolean keep then item :: kept else kept)))
  end.

(** [memory[cat].filter(callback)]: only an array has the method. *)
Definition filteredItems (memory : json) (journalSearchQuery : string)
    (cat : Category) : outcome (list json) :=
  bind (getProp (Some memory) (Category.key cat)) (fun items =>
  match items with
  | Some (JArray elements) => filter journalSearchQuery elements
  | _ => Raises TypeError
  end).

End Runtime.

(** ** The words of the specification

    The notions the properties below are stated with, defined on their
    own so that the code can be compared with them. *)

(** Empty or made of white space only. *)
Fixpoint blank (s : string) : bool :=
  match s with
  | EmptyString => true
  | String a s' => Js.isWhiteSpace a && blank s'
  end.

(** Two characters that are the same, or the same letter of A to Z in
    its two cases. *)
Definition sameLetter (a b : ascii) : bool :=
  let x := nat_of_ascii a in
  let y := nat_of_ascii b in
  Nat.eqb x y ||
  (Nat.leb 65 x && Nat.leb x 90 && Nat.eqb y (x + 32)) ||
  (Nat.leb 65 y && Nat.leb y 90 && Nat.eqb x (y + 32)).

(** Two texts that are the same up to the case of their letters. *)
Fixpoint equalIgnoringCase (s t : string) : bool :=
  match s, t with
  | EmptyString, EmptyString => true
  | String a s', String b t' => sameLetter a b && equalIgnoringCase s' t'
  | _, _ => false
  end.

(** [q] occurs in [s] up to the case of letters: some stretch of [s] is
    [q] up to case. *)
Definition containsIgnoringCase (s q : string) : Prop :=
  exists pre mid post,
    s = pre +:+ mid +:+ post /\ equalIgnoringCase mid q = true.

(** The match of the [search] operation: in the description or in some
    entry of the details. *)
Definition matchesQuery (q : string) (item : MemoryItem) : Prop :=
  containsIgnoringCase (description (value item)) q \/
  exists ds d,
    details (value item) = Some ds /\ In d ds /\ containsIgnoringCase d q.

(** A record, and a store, whose description and details are texts of the
    ASCII range. *)
Definition asciiItem (item : MemoryItem) : bool :=
  Js.isASCII (description (value item)) &&
  match details (value item) with
  | Some ds => forallb Js.isASCII ds
  | None => true
  end.



Definition tagged (c : Category) (items : list MemoryItem)
    : list (Category * MemoryItem) :=
  map (pair c) items.

Definition Idle (st : AppState) : Prop := isChatLoading st = false.
Definition AwaitingResponse (st : AppState) : Prop := isChatLoading st = true.

(** The text of the reply that ends an exchange. *)
Definition replyText (result : BackendResult) : string :=
  match result with
  | Resolved responseText => responseText
  | Rejected _ => "Connection Error."
  end.

(** The shape of the transcript in the two states of the controller:
    the greeting, then whole exchanges, then, while a response is awaited,
    the message of the user that is being answered. While idle no call is
    pending; while awaiting exactly one is. *)
Definition transcriptShape (st : AppState) : Prop :=
  exists now rest,
    chatMessages st = welcome now :: rest /\
    if isChatLoading st
    then exists exchanges u,
           rest = exchanges ++ [u] /\ role u = user /\
           alternates (map role exchanges) = true /\ length (pending st) = 1
    else alternates (map role rest) = true /\ pending st = [].

(** ** Sample values *)

Definition oldRecord : MemoryItem :=
  {| id := "7"; timestamp := "2024-01-01T00:00:00.000Z";
     value := {| description := "Morning Routine"; details := None |} |}.

Definition sampleStore : MemoryStore :=
  {| struggles := [];
     development :=
       [newItem "8" "2024-02-01T00:00:00.000Z" "Read daily" ["ten pages"]];
     mindset := [oldRecord] |}.

Definition sampleState : AppState :=
  setMemory sampleStore (initialState 0 ∅).

Definition awaitingState : AppState :=
  sendUserMessage "hello" "u1" 1 sampleState.


Definition sampleEvents : list Event :=
  [Typed "hello"; Send "u1" 1; Settled (Rejected "offline") "u3" 3].

Definition corruptStorage : gmap string string :=
  {[ "lucy_memory" := "{oops" ]}.

Definition savedStorage : gmap string string :=
  {[ "lucy_memory" := JSON.stringify (storeJson sampleStore) ]}.

(** ** The rest of the component: settings, navigation and the views *)

Module AppId.
Inductive t := home | journal | chat | settings | phone | messages | live.

#[global] Instance eq_dec : EqDecision t.
Proof. solve_decision. Defined.
End AppId.
Abbreviation AppId := AppId.t.

(** [keyof typeof permissions] *)
Module PermissionKey.
Inductive t := mic | location | activity | autoUpdate.

#[global] Instance eq_dec : EqDecision t.
Proof. solve_decision. Defined.
End PermissionKey.
Abbreviation PermissionKey := PermissionKey.t.

Record Permissions := {
  mic : bool;
  location : bool;
  activity : bool;
  autoUpdate : bool
}.

Definition initialPermissions : Permissions :=
  {| mic := false; location := false; activity := false; autoUpdate := false |}.

(** [permissions[key]] *)
Definition getFlag (p : Permissions) (key : PermissionKey) : bool :=
  match key with
  | PermissionKey.mic => mic p
  | PermissionKey.location => location p
  | PermissionKey.activity => activity p
  | PermissionKey.autoUpdate => autoUpdate p
  end.

(** [{ ...permissions, [key]: b }] *)
Definition setFlag (p : Permissions) (key : PermissionKey) (b : bool)
    : Permissions :=
  match key with
  | PermissionKey.mic =>
      {| mic := b; location := location p; activity := activity p;
         autoUpdate := autoUpdate p |}
  | PermissionKey.location =>
      {| mic := mic p; location := b; activity := activity p;
         autoUpdate := autoUpdate p |}
  | PermissionKey.activity =>
      {| mic := mic p; location := location p; activity := b;
         autoUpdate := autoUpdate p |}
  | PermissionKey.autoUpdate =>
      {| mic := mic p; location := location p; activity := activity p;
         autoUpdate := b |}
  end.

(** The permissions as the JSON value that is written and read back. *)
Definition permissionsJson (p : Permissions) : json :=
  JObject [("mic", JBool (mic p)); ("location", JBool (location p));
           ("activity", JBool (activity p)); ("autoUpdate", JBool (autoUpdate p))].

Definition asBool (v : option json) : option bool :=
  match v with Some (JBool b) => Some b | _ => None end.

Definition asPermissions (v : json) : option Permissions :=
  match v with
  | JObject members =>
      m ← asBool (JSON.lookup "mic" members);
      l ← asBool (JSON.lookup "location" members);
      a ← asBool (JSON.lookup "activity" members);
      u ← asBool (JSON.lookup "autoUpdate" members);
      Some {| mic := m; location := l; activity := a; autoUpdate := u |}
  | _ => None
  end.

(** The state cells of [App] that [AppState] leaves out. [theme] is the
    string the cell holds at run time: a stored theme is adopted unchecked. *)
Record Shell := {
  activeApp : AppId;
  isModalOpen : bool;
  theme : string;
  permissions : Permissions;
  journalFilter : JournalFilter;
  journalSearchQuery : string;
  liveListening : bool
}.

Definition initialShell : Shell :=
  {| activeApp := AppId.home;
     isModalOpen := false;
     theme := "light";
     permissions := initialPermissions;
     journalFilter := all;
     journalSearchQuery := EmptyString;
     liveListening := false |}.

(** The whole component. [micRequests] counts the calls of
    [getUserMedia] that have not settled yet. *)
Record App := {
  core : AppState;
  shell : Shell;
  micRequests : nat
}.

Definition initialApp (now : nat) (storage : gmap string string) : App :=
  {| core := initialState now storage; shell := initialShell; micRequests := 0 |}.

Definition storage (app : App) : gmap string string := localStorage (core app).

(** [localStorage.setItem(key, text)] *)
Definition setItem (key text : string) (st : AppState) : AppState :=
  {| memory := memory st;
     chatMessages := chatMessages st;
     inputMessage := inputMessage st;
     isChatLoading := isChatLoading st;
     localStorage := <[key := text]> (localStorage st);
     pending := pending st |}.

Definition setActiveApp (a : AppId) (sh : Shell) : Shell :=
  {| activeApp := a; isModalOpen := isModalOpen sh; theme := theme sh;
     permissions := permissions sh; journalFilter := journalFilter sh;
     journalSearchQuery := journalSearchQuery sh;
     liveListening := liveListening sh |}.

Definition setIsModalOpen (b : bool) (sh : Shell) : Shell :=
  {| activeApp := activeApp sh; isModalOpen := b; theme := theme sh;
     permissions := permissions sh; journalFilter := journalFilter sh;
     journalSearchQuery := journalSearchQuery sh;
     liveListening := liveListening sh |}.

Definition setTheme (t : string) (sh : Shell) : Shell :=
  {| activeApp := activeApp sh; isModalOpen := isModalOpen sh; theme := t;
     permissions := permissions sh; journalFilter := journalFilter sh;
     journalSearchQuery := journalSearchQuery sh;
     liveListening := liveListening sh |}.

Definition setPermissions (p : Permissions) (sh : Shell) : Shell :=
  {| activeApp := activeApp sh; isModalOpen := isModalOpen sh;
     theme := theme sh; permissions := p; journalFilter := journalFilter sh;
     journalSearchQuery := journalSearchQuery sh;
     liveListening := liveListening sh |}.

Definition setJournalFilter (f : JournalFilter) (sh : Shell) : Shell :=
  {| activeApp := activeApp sh; isModalOpen := isModalOpen sh;
     theme := theme sh; permissions := permissions sh; journalFilter := f;
     journalSearchQuery := journalSearchQuery sh;
     liveListening := liveListening sh |}.

Definition setJournalSearchQuery (q : string) (sh : Shell) : Shell :=
  {| activeApp := activeApp sh; isModalOpen := isModalOpen sh;
     theme := theme sh; permissions := permissions sh;
     journalFilter := journalFilter sh; journalSearchQuery := q;
     liveListening := liveListening sh |}.

Definition setLiveListening (b : bool) (sh : Shell) : Shell :=
  {| activeApp := activeApp sh; isModalOpen := isModalOpen sh;
     theme := theme sh; permissions := permissions sh;
     journalFilter := journalFilter sh;
     journalSearchQuery := journalSearchQuery sh; liveListening := b |}.

Definition inShell (f : Shell -> Shell) (app : App) : App :=
  {| core := core app; shell := f (shell app); micRequests := micRequests app |}.

(** *** Theme *)

(** The updater of [toggleTheme]: [prev === 'light' ? 'dark' : 'light'] *)
Definition toggleTheme (prev : string) : string :=
  if String.eqb prev "light" then "dark" else "light".

(** The background the second effect gives to the page. *)
Definition backgroundColor (t : string) : string :=
  if String.eqb t "dark" then "#000000" else "#f8fafc".

(** The second effect of [App], run after the first render and after
    every render in which [theme] has changed: it stores the theme. *)
Definition themeEffect (app : App) : App :=
  {| core := setItem "lucy_theme" (theme (shell app)) (core app);
     shell := shell app;
     micRequests := micRequests app |}.

(** *** Start-up

    The effects of the first render, in the order of the source. The first
    effect reads the storage and sets the state cells; the second stores
    the theme of that render, the initial one. The new state is then
    rendered, and the second effect runs once more when the theme is no
    longer the initial one. [None] when the first effect raises, and when
    what it has read is not of the declared types, which this state cannot
    hold. *)
Definition mount (now : nat) (ls : gmap string string) : option App :=
  match persistenceEffect ls initialCells with
  | Raises _ => None
  | Returns cells =>
      m ← asMemoryStore (memoryCell cells);
      p ← asPermissions (permissionsCell cells);
      let first := themeEffect (initialApp now ls) in
      let next :=
        {| core := setMemory m (core first);
           shell := setPermissions p (setTheme (themeCell cells) (shell first));
           micRequests := micRequests first |} in
      Some (if String.eqb (theme (shell next)) (theme (shell first))
            then next else themeEffect next)
  end.

(** *** Permissions *)

(** [updatePermissions(key)]: the flag is flipped and the permissions are
    stored; when the microphone has just been switched on, the browser is
    asked for it. *)
Definition updatePermissions (key : PermissionKey) (app : App) : App :=
  let newPerms :=
    setFlag (permissions (shell app)) key
      (negb (getFlag (permissions (shell app)) key)) in
  {| core :=
       setItem "lucy_permissions" (JSON.stringify (permissionsJson newPerms))
         (core app);
     shell := setPermissions newPerms (shell app);
     micRequests :=
       if bool_decide (key = PermissionKey.mic) && mic newPerms
       then S (micRequests app) else micRequests app |}.

(** The [catch] callback of the request, run when the browser refuses:
    [setPermissions(p => ({ ...p, mic: false }))]. *)
Definition micDenied (app : App) : App :=
  {| core := core app;
     shell :=
       setPermissions (setFlag (permissions (shell app)) PermissionKey.mic false)
         (shell app);
     micRequests := pred (micRequests app) |}.

(** The request granted: no callback is attached. *)
Definition micGranted (app : App) : App :=
  {| core := core app; shell := shell app;
     micRequests := pred (micRequests app) |}.

(** *** The journal view, group by group *)

(** What [renderJournal] returns for one category: nothing, the
    "No matches in ..." line, or the cards, under a header or not. *)
Inductive GroupView :=
| NoGroup
| NoMatches (cat : Category)
| Group (header : bool) (cards : list MemoryItem).

Definition isAll (f : JournalFilter) : bool :=
  match f with all => true | only _ => false end.

(** [journalFilter === cat] *)
Definition isOnly (f : JournalFilter) (cat : Category) : bool :=
  match f with all => false | only c => bool_decide (c = cat) end.

Definition renderGroup (m : MemoryStore) (f : JournalFilter) (q : string)
    (cat : Category) : GroupView :=
  let items := filteredItems m q cat in
  if Nat.eqb (length items) 0 then
    if Js.truthy q && negb (isAll f) && isOnly f cat then NoMatches cat
    else NoGroup
  else Group (isAll f || Js.truthy q) items.

Definition journalGroups (m : MemoryStore) (f : JournalFilter) (q : string)
    : list GroupView :=
  map (renderGroup m f q) (List.filter (shows f) journalCategories).

Definition groupCards (cat : Category) (g : GroupView)
    : list (Category * MemoryItem) :=
  match g with
  | Group _ cards => map (pair cat) cards
  | _ => []
  end.

(** The journal as the component shows it in a state. *)
Definition journalView (app : App) : list GroupView :=
  journalGroups (memory (core app)) (journalFilter (shell app))
    (journalSearchQuery (shell app)).

Definition journalCards (app : App) : list (Category * MemoryItem) :=
  renderJournal (memory (core app)) (journalFilter (shell app))
    (journalSearchQuery (shell app)).

(** *** The Lucy Live view ([renderLiveApp]) *)

Record LiveView := {
  pulsing : bool;
  liveText : string;
  liveButton : option string
}.

Definition renderLiveApp (sh : Shell) : LiveView :=
  {| pulsing := liveListening sh;
     liveText :=
       if mic (permissions sh)
       then (if liveListening sh
             then "Listening to your environment to update memory context..."
             else "Tap to start passive listening.")
       else "Microphone permission required. Go to Settings.";
     liveButton :=
       if mic (permissions sh)
       then Some (if liveListening sh then "Stop Listening" else "Start Listening")
       else None |}.

(** *** The clock ([Clock]) *)

(** [Number.prototype.toString] on a natural number. *)
Fixpoint decimal (fuel n : nat) (acc : string) : string :=
  match fuel with
  | O => acc
  | S fuel =>
      let acc' := String (ascii_of_nat (48 + n mod 10)) acc in
      if Nat.eqb (n / 10) 0 then acc' else decimal fuel (n / 10) acc'
  end.

Definition toString (n : nat) : string := decimal (S n) n EmptyString.

Fixpoint repeatChar (n : nat) (c : ascii) : string :=
  match n with
  | O => EmptyString
  | S n => String c (repeatChar n c)
  end.

(** [s.padStart(targetLength, c)] for a pad of one character. *)
Definition padStart (targetLength : nat) (c : ascii) (s : string) : string :=
  repeatChar (targetLength - String.length s) c +:+ s.

(** The text of the clock for [getHours()] and [getMinutes()]. *)
Definition clockText (hours minutes : nat) : string :=
  padStart 2 "0" (toString hours) +:+ ":" +:+ padStart 2 "0" (toString minutes).

(** *** What the user and the environment can do

    The events that follow the start-up ([mount]). One event per control
    of the views; a control can be used only in the view that shows it.
    The theme is changed by its switch only, so that is where the second
    effect runs again. [Launch] is an icon, the widget or a dock button
    of the home screen, [Back] the arrow of every other view. [MicDenied]
    and [MicGranted] settle a request to the browser. [CloseModal] comes
    from the entry form and [Core] is an event of the memory store or of
    the chat; these two are not tied to a view here. The store is read
    at start-up; a [Loaded] event is nevertheless allowed later as well,
    and like every event but those of the two switches and a save it
    stores nothing. *)
Inductive UiEvent :=
| Launch (a : AppId)
| LaunchJournal (f : JournalFilter)
| Back
| OpenModal
| CloseModal
| SelectTab (f : JournalFilter)
| SearchInput (q : string)
| ClearSearch
| ToggleTheme
| TogglePermission (key : PermissionKey)
| MicDenied
| MicGranted
| ToggleListening
| Core (ev : Event).

Definition viewing (a : AppId) (app : App) : bool :=
  bool_decide (activeApp (shell app) = a).

Definition uiStep (app : App) (ev : UiEvent) : option App :=
  match ev with
  | Launch a =>
      if viewing AppId.home app && negb (bool_decide (a = AppId.journal))
      then Some (inShell (setActiveApp a) app) else None
  | LaunchJournal f =>
      if viewing AppId.home app
      then Some (inShell (setActiveApp AppId.journal)
                   (inShell (setJournalFilter f) app))
      else None
  | Back =>
      if viewing AppId.home app then None
      else Some (inShell (setActiveApp AppId.home) app)
  | OpenModal =>
      if viewing AppId.home app || viewing AppId.journal app
      then Some (inShell (setIsModalOpen true) app) else None
  | CloseModal => Some (inShell (setIsModalOpen false) app)
  | SelectTab f =>
      if viewing AppId.journal app
      then Some (inShell (setJournalFilter f) app) else None
  | SearchInput q =>
      if viewing AppId.journal app
      then Some (inShell (setJournalSearchQuery q) app) else None
  | ClearSearch =>
      if viewing AppId.journal app && Js.truthy (journalSearchQuery (shell app))
      then Some (inShell (setJournalSearchQuery EmptyString) app) else None
  | ToggleTheme =>
      if viewing AppId.settings app
      then Some (themeEffect
                   (inShell (fun sh => setTheme (toggleTheme (theme sh)) sh) app))
      else None
  | TogglePermission key =>
      if viewing AppId.settings app &&
         (bool_decide (key = PermissionKey.mic) ||
          bool_decide (key = PermissionKey.activity))
      then Some (updatePermissions key app) else None
  | MicDenied =>
      match micRequests app with
      | O => None
      | S _ => Some (micDenied app)
      end
  | MicGranted =>
      match micRequests app with
      | O => None
      | S _ => Some (micGranted app)
      end
  | ToggleListening =>
      if viewing AppId.live app && mic (permissions (shell app))
      then Some (inShell (fun sh => setLiveListening (negb (liveListening sh)) sh)
                   app)
      else None
  | Core ev' =>
      match step (core app) ev' with
      | Some st' =>
          Some {| core := st'; shell := shell app;
                  micRequests := micRequests app |}
      | None => None
      end
  end.

Fixpoint uiRun (app : App) (evs : list UiEvent) : option App :=
  match evs with
  | [] => Some app
  | ev :: rest =>
      match uiStep app ev with
      | Some app' => uiRun app' rest
      | None => None
      end
  end.

(** *** Notions the further properties are stated with *)

(** The stored memory is what [load] would read back as the store. *)
Definition inSync (st : AppState) : Prop :=
  load (localStorage st) = Returns (storeJson (memory st)).

Definition isLoaded (ev : Event) : bool :=
  match ev with Loaded _ => true | _ => false end.

Definition isSaved (ev : Event) : bool :=
  match ev with Saved _ _ _ _ _ => true | _ => false end.

Definition count (m : MemoryStore) : nat :=
  length (struggles m) + length (development m) + length (mindset m).

(** The text under a key can be read at start-up: absent, empty, or text
    that parses. *)
Definition readable (ls : gmap string string) (key : string) : Prop :=
  match ls !! key with
  | Some s => Js.truthy s = true -> is_Some (JSON.parse s)
  | None => True
  end.

(** While a call is pending it is the only one, and it carries the text of
    the last message of the transcript, a message of the user. *)
Definition oneRequest (st : AppState) : Prop :=
  match pending st with
  | [] => isChatLoading st = false
  | [(t, _)] =>
      isChatLoading st = true /\
      exists u, last (chatMessages st) = Some u /\ role u = user /\ text u = t
  | _ => False
  end.

Definition editsSearch (ev : UiEvent) : bool :=
  match ev with SearchInput _ | ClearSearch => true | _ => false end.

(** The stored theme is the theme in use. *)
Definition themeStored (app : App) : Prop :=
  storage app !! "lucy_theme" = Some (theme (shell app)).

(** ** Further sample values *)

Definition listeningEvents : list UiEvent :=
  [Launch AppId.settings; TogglePermission PermissionKey.mic; MicGranted;
   Back; Launch AppId.live; ToggleListening; Back; Launch AppId.settings;
   TogglePermission PermissionKey.mic; Back; Launch AppId.live].

Definition deniedEvents : list UiEvent :=
  [Launch AppId.settings; TogglePermission PermissionKey.mic; MicDenied].

Definition listeningApp : App :=
  default (initialApp 0 ∅) (uiRun (initialApp 0 ∅) listeningEvents).

Definition searchingEvents : list UiEvent :=
  [LaunchJournal all; SearchInput "morning"; Back;
   LaunchJournal (only Category.development)].

Definition darkStorage : gmap string string :=
  {[ "lucy_theme" := "dark" ]}.

Definition darkApp : App :=
  default (initialApp 0 darkStorage) (mount 0 darkStorage).

Definition settingsEvents : list UiEvent :=
  [Launch AppId.settings; ToggleTheme].

Definition settingsApp : App :=
  default darkApp (uiRun darkApp settingsEvents).

(** * Properties *)

(** ** Strings *)

Lemma trimStart_blank (s : string) :
  Js.trimStart s = EmptyString <-> blank s = true.
Proof.
  induction s as [|a s IH]; simpl; [done|].
  destruct (Js.isWhiteSpace a); simpl; [exact IH|].
  split; discriminate.
Qed.

Lemma trimStart_keeps_blank (s : string) :
  blank (Js.trimStart s) = true -> Js.trimStart s = EmptyString.
Proof.
  induction s as [|a s IH]; simpl; [done|].
  destruct (Js.isWhiteSpace a) eqn:Ha; [exact IH|].
  simpl. rewrite Ha. discriminate.
Qed.

Lemma trimEnd_blank (s : string) :
  Js.trimEnd s = EmptyString <-> blank s = true.
Proof.
  induction s as [|a s IH]; simpl; [done|].
  destruct (Js.trimEnd s) eqn:Ht.
  - destruct (Js.isWhiteSpace a); simpl.
    + split; [intros _; by apply IH | done].
    + split; discriminate.
  - split; [discriminate|].
    intros [_ Hb]%andb_prop. apply IH in Hb. discriminate.
Qed.

Lemma trim_blank (s : string) :
  Js.truthy (Js.trim s) = false <-> blank s = true.
Proof.
  unfold Js.trim.
  assert (Htr : forall t, Js.truthy t = false <-> t = EmptyString).
  { intros []; simpl; split; done. }
  rewrite Htr, trimEnd_blank. split.
  - intros H. by apply trimStart_blank, trimStart_keeps_blank.
  - intros H. apply trimStart_blank in H. by rewrite H.
Qed.

Lemma append_cons (a : ascii) (s t : string) :
  String a s +:+ t = String a (s +:+ t).
Proof. reflexivity. Qed.

Lemma append_empty (t : string) : EmptyString +:+ t = t.
Proof. reflexivity. Qed.

Lemma prefix_app (q s : string) :
  String.prefix q s = true <-> exists post, s = q +:+ post.
Proof.
  revert s. induction q as [|a q IH]; intros s.
  - split; [intros _; by exists s | by destruct s].
  - destruct s as [|b s]; simpl; [split; [done | intros [? ?]; done]|].
    destruct (Ascii.ascii_dec a b) as [->|Hne].
    + rewrite IH. split; intros [post H]; exists post;
        rewrite append_cons in *; congruence.
    + split; [done|]. intros [post H]. rewrite append_cons in H. congruence.
Qed.

Lemma includes_spec (s q : string) :
  Js.includes s q = true <-> exists pre post, s = pre +:+ q +:+ post.
Proof.
  induction s as [|a s IH].
  - change (Js.includes EmptyString q) with (String.prefix q EmptyString || false).
    rewrite orb_false_r, prefix_app. split.
    + intros [post H]. by exists EmptyString, post.
    + intros [pre [post H]]. destruct pre; [by exists post | done].
  - change (Js.includes (String a s) q)
      with (String.prefix q (String a s) || Js.includes s q).
    rewrite orb_true_iff, prefix_app, IH. split.
    + intros [[post H] | [pre [post H]]].
      * by exists EmptyString, post.
      * exists (String a pre), post. by rewrite append_cons, H.
    + intros [[|b pre] [post H]].
      * left. by exists post.
      * right. exists pre, post. rewrite append_cons in H. congruence.
Qed.

Lemma toLowerCase_app (s t : string) :
  Js.toLowerCase (s +:+ t) = Js.toLowerCase s +:+ Js.toLowerCase t.
Proof.
  induction s as [|a s IH]; [done|].
  rewrite append_cons. simpl. by rewrite IH.
Qed.

Lemma toLowerCase_split (s x y : string) :
  Js.toLowerCase s = x +:+ y ->
  exists a b, s = a +:+ b /\ Js.toLowerCase a = x /\ Js.toLowerCase b = y.
Proof.
  revert s. induction x as [|c x IH]; intros s H.
  - by exists EmptyString, s.
  - rewrite append_cons in H. destruct s as [|d s]; simpl in H; [done|].
    injection H as Hc Hs. destruct (IH _ Hs) as (a & b & -> & Ha & Hb).
    exists (String d a), b. simpl. by rewrite Hc, Ha.
Qed.

Lemma nat_of_lowerChar (a : ascii) :
  nat_of_ascii (Js.lowerChar a) =
  if Nat.leb 65 (nat_of_ascii a) && Nat.leb (nat_of_ascii a) 90
  then nat_of_ascii a + 32 else nat_of_ascii a.
Proof.
  unfold Js.lowerChar.
  destruct (Nat.leb 65 (nat_of_ascii a) && Nat.leb (nat_of_ascii a) 90) eqn:E;
    [|done].
  apply andb_prop in E as [_ E]. apply Nat.leb_le in E.
  apply nat_ascii_embedding. lia.
Qed.

(** [toLowerCase] maps two characters to the same one exactly when they
    are the same letter. *)
Lemma sameLetter_lowerChar (a b : ascii) :
  sameLetter a b = true <-> Js.lowerChar a = Js.lowerChar b.
Proof.
  assert (E : Js.lowerChar a = Js.lowerChar b <->
              nat_of_ascii (Js.lowerChar a) = nat_of_ascii (Js.lowerChar b)).
  { split; [by intros -> |]. intros H.
    rewrite <- (ascii_nat_embedding (Js.lowerChar a)), H.
    apply ascii_nat_embedding. }
  rewrite E, !nat_of_lowerChar. unfold sameLetter.
  destruct (Nat.leb_spec 65 (nat_of_ascii a)), (Nat.leb_spec (nat_of_ascii a) 90),
    (Nat.leb_spec 65 (nat_of_ascii b)), (Nat.leb_spec (nat_of_ascii b) 90),
    (Nat.eqb_spec (nat_of_ascii a) (nat_of_ascii b)),
    (Nat.eqb_spec (nat_of_ascii b) (nat_of_ascii a + 32)),
    (Nat.eqb_spec (nat_of_ascii a) (nat_of_ascii b + 32));
    simpl; split; intros; first [lia | done].
Qed.

Lemma equalIgnoringCase_toLowerCase (s t : string) :
  equalIgnoringCase s t = true <-> Js.toLowerCase s = Js.toLowerCase t.
Proof.
  revert t. induction s as [|a s IH]; intros [|b t]; simpl; try done.
  rewrite andb_true_iff, sameLetter_lowerChar, IH. split.
  - by intros [-> ->].
  - intros H. by injection H.
Qed.

(** The test of the component, [s.toLowerCase().includes(q.toLowerCase())],
    is containment up to case. *)
Lemma includes_toLowerCase (s q : string) :
  Js.includes (Js.toLowerCase s) (Js.toLowerCase q) = true
  <-> containsIgnoringCase s q.
Proof.
  rewrite includes_spec. unfold containsIgnoringCase. split.
  - intros (x & y & H).
    apply toLowerCase_split in H as (pre & rest & -> & <- & H).
    apply toLowerCase_split in H as (mid & post & -> & Hm & <-).
    exists pre, mid, post. by rewrite equalIgnoringCase_toLowerCase.
  - intros (pre & mid & post & -> & Hm).
    apply equalIgnoringCase_toLowerCase in Hm.
    exists (Js.toLowerCase pre), (Js.toLowerCase post).
    by rewrite !toLowerCase_app, Hm.
Qed.

Lemma containsIgnoringCase_empty (s : string) :
  containsIgnoringCase s EmptyString.
Proof. by exists EmptyString, EmptyString, s. Qed.

Example morning_routine :
  Js.includes (Js.toLowerCase "Morning Routine") (Js.toLowerCase "morning")
  = true.
Proof. reflexivity. Qed.

(** ** The journal view *)

(** Whether the callback keeps an item, after the coercion of [filter]. *)
Lemma keeps_inDesc_or_inDetails (q : string) (item : MemoryItem) :
  Js.toBoolean (itemPredicate q item) =
  negb (Js.truthy q) ||
  Js.includes (Js.toLowerCase (description (value item))) (Js.toLowerCase q) ||
  match details (value item) with
  | Some ds => existsb (fun d => Js.includes (Js.toLowerCase d) (Js.toLowerCase q)) ds
  | None => false
  end.
Proof.
  unfold itemPredicate. destruct (Js.truthy q); simpl; [|done].
  destruct (Js.includes _ _); simpl; [done|].
  by destruct (details (value item)).
Qed.

Lemma keeps_matchesQuery (q : string) (item : MemoryItem) :
  Js.toBoolean (itemPredicate q item) = true <-> matchesQuery q item.
Proof.
  rewrite keeps_inDesc_or_inDetails, !orb_true_iff, includes_toLowerCase.
  unfold matchesQuery. split.
  - intros [[Hq | Hd] | Hds].
    + left. destruct q; [apply containsIgnoringCase_empty | done].
    + by left.
    + right. destruct (details (value item)) as [ds|]; [|done].
      apply existsb_exists in Hds as (d & Hin & Hd).
      exists ds, d. by rewrite <- includes_toLowerCase.
  - intros [Hd | (ds & d & Hds & Hin & Hd)].
    + left. by right.
    + right. rewrite Hds. apply existsb_exists. exists d.
      by rewrite includes_toLowerCase.
Qed.

Lemma filteredItems_no_query (m : MemoryStore) (c : Category) :
  filteredItems m EmptyString c = get m c.
Proof.
  unfold filteredItems. simpl.
  induction (get m c) as [|x l IH]; simpl; [done | by rewrite IH].
Qed.

Lemma renderJournal_all (m : MemoryStore) (q : string) :
  renderJournal m all q =
  tagged Category.development (filteredItems m q Category.development) ++
  tagged Category.mindset (filteredItems m q Category.mindset) ++
  tagged Category.struggles (filteredItems m q Category.struggles).
Proof. unfold renderJournal. simpl. by rewrite app_nil_r. Qed.

Lemma renderJournal_only (m : MemoryStore) (c : Category) (q : string) :
  renderJournal m (only c) q = tagged c (filteredItems m q c).
Proof. unfold renderJournal. destruct c; simpl; by rewrite app_nil_r. Qed.

Lemma filterByCategory_only (m : MemoryStore) (c : Category) :
  filterByCategory m (only c) = tagged c (get m c).
Proof.
  unfold filterByCategory. by rewrite renderJournal_only, filteredItems_no_query.
Qed.

Lemma filter_tagged (keep : MemoryItem -> bool) (c : Category)
    (items : list MemoryItem) :
  List.filter (fun ci => keep (snd ci)) (tagged c items) =
  tagged c (List.filter keep items).
Proof.
  unfold tagged. induction items as [|x l IH]; simpl; [done|].
  destruct (keep x); simpl; by rewrite IH.
Qed.

Lemma renderJournal_filter (m : MemoryStore) (f : JournalFilter) (q : string) :
  renderJournal m f q =
  List.filter (fun ci => Js.toBoolean (itemPredicate q (snd ci)))
    (renderJournal m f EmptyString).
Proof.
  pose proof (filter_tagged (fun item => Js.toBoolean (itemPredicate q item)))
    as Ht. simpl in Ht.
  destruct f as [|c].
  - rewrite !renderJournal_all, !filteredItems_no_query.
    rewrite !List.filter_app, !Ht. reflexivity.
  - rewrite !renderJournal_only, filteredItems_no_query, Ht.
    reflexivity.
Qed.

(** The "No memories found" block is shown exactly when a search text is
    present and no card of any category is left. *)
Lemma globalEmptyState_no_card (m : MemoryStore) (q : string) :
  globalEmptyState m q = true <-> Js.truthy q = true /\ search m all q = [].
Proof.
  unfold globalEmptyState, search. rewrite renderJournal_all, andb_true_iff.
  split; intros [Hq H]; split; try done.
  - simpl in H. rewrite !andb_true_iff in H. destruct H as (Hd & Hm & Hs & _).
    unfold filteredItems, itemPredicate. rewrite Hq. simpl.
    apply Nat.eqb_eq, length_zero_iff_nil in Hd, Hm, Hs.
    by rewrite Hd, Hm, Hs.
  - apply app_eq_nil in H as [Hd H]. apply app_eq_nil in H as [Hm Hs].
    apply map_eq_nil in Hd, Hm, Hs.
    unfold filteredItems, itemPredicate in Hd, Hm, Hs. rewrite Hq in Hd, Hm, Hs.
    simpl in *. by rewrite Hd, Hm, Hs.
Qed.

(** C5. For every store, [filterByCategory('all')] lists the items of
    development, then those of mindset, then those of struggles, each
    group in the order of its list in the store, so that the number of
    items is the sum of the three per-category counts. *)
Theorem filterByCategory_all_grouped (m : MemoryStore) :
  filterByCategory m all =
    tagged Category.development (development m) ++
    tagged Category.mindset (mindset m) ++
    tagged Category.struggles (struggles m)
  /\ filterByCategory m all =
       filterByCategory m (only Category.development) ++
       filterByCategory m (only Category.mindset) ++
       filterByCategory m (only Category.struggles)
  /\ length (filterByCategory m all) =
       length (development m) + length (mindset m) + length (struggles m).
Proof.
  assert (H : filterByCategory m all =
    tagged Category.development (development m) ++
    tagged Category.mindset (mindset m) ++
    tagged Category.struggles (struggles m)).
  { unfold filterByCategory. rewrite renderJournal_all.
    by rewrite !filteredItems_no_query. }
  split; [exact H|]. split.
  - by rewrite H, !filterByCategory_only.
  - rewrite H. unfold tagged. rewrite !length_app, !length_map. lia.
Qed.




(** ** The typed journal filter and the run-time one agree *)





(** A record of any other shape can make the callback raise: here the
    record has no [value]. *)
Example Runtime_itemPredicate_raises :
  Runtime.itemPredicate "a" (JObject [("id", JString "1")]) = Raises TypeError.
Proof. reflexivity. Qed.



Lemma asString_strings (ds : list string) :
  mapM asString (map JString ds) = Some ds.
Proof. induction ds as [|d ds IH]; simpl; [done | by rewrite IH]. Qed.

Lemma asItem_itemJson (item : MemoryItem) : asItem (itemJson item) = Some item.
Proof.
  destruct item as [i t [d [ds|]]]; simpl; [|done].
  by rewrite asString_strings.
Qed.





(** ** Adding a record *)

Lemma get_set_eq (m : MemoryStore) (c : Category) (items : list MemoryItem) :
  get (set m c items) c = items.
Proof. by destruct c. Qed.

Lemma get_set_ne (m : MemoryStore) (c c' : Category)
    (items : list MemoryItem) :
  c' <> c -> get (set m c items) c' = get m c'.
Proof. by destruct c, c'. Qed.

Lemma onSave_memory (uuid now : string) (c : Category) (d : string)
    (det : list string) (st : AppState) :
  memory (onSave uuid now c d det st) =
  set (memory st) c (newItem uuid now d det :: get (memory st) c).
Proof. reflexivity. Qed.

(** [onSave] itself accepts any description: the empty one is stored like
    any other. *)
Remark onSave_stores_any_description (uuid now : string) (c : Category)
    (det : list string) (st : AppState) :
  get (memory (onSave uuid now c EmptyString det st)) c =
  newItem uuid now EmptyString det :: get (memory st) c.
Proof. by rewrite onSave_memory, get_set_eq. Qed.

(** On an input that passes the validation, [addRecord] is [onSave]. *)
Lemma addRecord_valid (uuid now : string) (c : Category) (d : string)
    (det : list string) (st : AppState) :
  blank d = false -> cleanDetails det = det ->
  addRecord uuid now c d det st =
  (Returns (newItem uuid now d det), onSave uuid now c d det st).
Proof.
  intros Hd Hdet. unfold addRecord. rewrite Hdet.
  destruct (Js.truthy (Js.trim d)) eqn:Ht; [done|].
  apply trim_blank in Ht. congruence.
Qed.

(** C2. For every category and every list of details, [addRecord] with a
    description that is empty or made of white space only fails with
    [ValidationError] and leaves the state as it was: the store has the
    same items in every category and nothing is written to the storage. *)
Theorem addRecord_blank_description (uuid now : string) (c : Category)
    (d : string) (det : list string) (st : AppState) (H : blank d = true) :
  addRecord uuid now c d det st = (Raises ValidationError, st)
  /\ queryAll (snd (addRecord uuid now c d det st)) = queryAll st
  /\ localStorage (snd (addRecord uuid now c d det st)) = localStorage st.
Proof.
  assert (E : addRecord uuid now c d det st = (Raises ValidationError, st)).
  { unfold addRecord. apply trim_blank in H. by rewrite H. }
  by rewrite E.
Qed.

Lemma addRecord_blank_description_witness :
  blank "  " = true /\
  addRecord "9" "2024-03-01T00:00:00.000Z" Category.mindset "  " ["x"] sampleState
  = (Raises ValidationError, sampleState).
Proof.
  split; [reflexivity|].
  exact (proj1 (addRecord_blank_description "9" "2024-03-01T00:00:00.000Z"
                  Category.mindset "  " ["x"] sampleState eq_refl)).
Defined.

(** C3. For every category, description and details and every prior
    state, after the record is added by [onSave] (the call [addRecord]
    makes on a valid input, see [addRecord_valid]) the store returned by
    [queryAll] has, in that category, the new item in front of the former
    list, so exactly one more item; the description and the details of the
    new item are the ones given; the lists of the two other categories
    are unchanged. *)
Theorem onSave_adds_one_record (uuid now : string) (c : Category)
    (d : string) (det : list string) (st : AppState) :
  let st' := onSave uuid now c d det st in
  (exists item,
     get (queryAll st') c = item :: get (queryAll st) c /\
     description (value item) = d /\
     details (value item) = Some det)
  /\ length (get (queryAll st') c) = S (length (get (queryAll st) c))
  /\ (forall c', c' <> c -> get (queryAll st') c' = get (queryAll st) c').
Proof.
  intros st'. subst st'. unfold queryAll. rewrite onSave_memory.
  split; [|split].
  - exists (newItem uuid now d det). by rewrite get_set_eq.
  - by rewrite get_set_eq.
  - intros c' Hc. by apply get_set_ne.
Qed.

(** C4. For every category [c] and every prior state, after a record
    described "A" and then a record described "B" are added to [c] by
    [onSave], both with an empty list of details, [filterByCategory(c)]
    lists the record B first, the record A second, and then the former
    items: new items are prepended. *)
Theorem onSave_newest_first (idA nowA idB nowB : string) (c : Category)
    (st : AppState) :
  let st' := onSave idB nowB c "B" [] (onSave idA nowA c "A" [] st) in
  filterByCategory (queryAll st') (only c) =
  (c, newItem idB nowB "B" []) :: (c, newItem idA nowA "A" []) ::
  filterByCategory (queryAll st) (only c).
Proof.
  intros st'. subst st'. unfold queryAll.
  rewrite !filterByCategory_only, !onSave_memory.
  by rewrite !get_set_eq.
Qed.

(** ** The chat controller *)


Lemma handleSendMessage_rejects (uuid : string) (now : nat) (st : AppState) :
  AwaitingResponse st \/ blank (inputMessage st) = true ->
  handleSendMessage uuid now st = st.
Proof.
  unfold handleSendMessage, AwaitingResponse. intros [H | H].
  - by rewrite H, orb_true_r.
  - apply trim_blank in H. by rewrite H.
Qed.


(** C7. While a response is awaited, or when the submitted text is empty
    or white space only, [sendUserMessage] changes nothing but the text of
    the input field: the transcript and its length are the same, the
    controller stays in its state, and no call of the backend is added. *)
Theorem sendUserMessage_rejected (t uuid : string) (now : nat) (st : AppState)
    (H : AwaitingResponse st \/ blank t = true) :
  sendUserMessage t uuid now st = setInputMessage t st
  /\ chatMessages (sendUserMessage t uuid now st) = chatMessages st
  /\ length (chatMessages (sendUserMessage t uuid now st)) =
       length (chatMessages st)
  /\ pending (sendUserMessage t uuid now st) = pending st
  /\ isChatLoading (sendUserMessage t uuid now st) = isChatLoading st.
Proof.
  assert (E : sendUserMessage t uuid now st = setInputMessage t st).
  { unfold sendUserMessage. apply handleSendMessage_rejects.
    destruct H as [H | H]; [by left | by right]. }
  by rewrite E.
Qed.

Lemma sendUserMessage_rejected_witness :
  (AwaitingResponse awaitingState \/ blank "again" = true) /\
  length (chatMessages (sendUserMessage "again" "u2" 2 awaitingState)) =
  length (chatMessages awaitingState).
Proof.
  split; [left; reflexivity|].
  exact (proj1 (proj2 (proj2
    (sendUserMessage_rejected "again" "u2" 2 awaitingState
       (or_introl eq_refl))))).
Defined.





(** *** The shape of the transcript is kept by every event *)

Lemma alternates_app (l l' : list Role) :
  alternates l = true -> alternates (l ++ l') = alternates l'.
Proof.
  remember (length l) as n eqn:Hn. revert l Hn.
  induction n as [n IH] using lt_wf_ind. intros l Hn H.
  destruct l as [|[] [|[] l]]; simpl in *; try done.
  apply (IH (length l)); [lia | done | done].
Qed.

Lemma alternates_even (l : list Role) :
  alternates l = true -> Nat.Even (length l).
Proof.
  remember (length l) as n eqn:Hn. revert l Hn.
  induction n as [n IH] using lt_wf_ind. intros l Hn H.
  destruct l as [|[] [|[] l]]; simpl in *; try done.
  - subst n. by exists 0.
  - destruct (IH (length l)) with (l := l) as [k Hk]; [lia | done | done |].
    subst n. exists (S k). lia.
Qed.

Lemma initialState_shape (now : nat) (storage : gmap string string) :
  transcriptShape (initialState now storage).
Proof. by exists now, []. Qed.

Lemma step_shape (st st' : AppState) (ev : Event) :
  transcriptShape st -> step st ev = Some st' -> transcriptShape st'.
Proof.
  intros (now & rest & Hc & Hs) Hstep.
  destruct ev as [t | uuid n | result uuid n | uuid n c d det | m];
    simpl in Hstep.
  - injection Hstep as <-. by exists now, rest.
  - injection Hstep as <-. unfold handleSendMessage.
    destruct (negb _ || isChatLoading st) eqn:E; [by exists now, rest|].
    apply orb_false_elim in E as [_ E]. rewrite E in Hs.
    destruct Hs as [Ha Hp].
    exists now, (rest ++ [{| msg_id := uuid; role := user;
                            text := inputMessage st; msg_timestamp := n |}]).
    simpl. split; [by rewrite Hc|].
    eexists rest, _. rewrite Hp. by repeat split.
  - destruct (pending st) as [|p ps] eqn:Hp; [done|]. injection Hstep as <-.
    destruct (isChatLoading st); [|by destruct Hs].
    destruct Hs as (exchanges & u & -> & Hu & Ha & Hl).
    exists now,
      (exchanges ++ [u; match result with
                    | Resolved responseText => modelMessage uuid n responseText
                    | Rejected _ => modelMessage uuid n "Connection Error."
                    end]).
    simpl. split; [rewrite Hc; simpl; by rewrite <- app_assoc|]. split.
    + rewrite map_app, (alternates_app _ _ Ha). simpl. rewrite Hu.
      by destruct result.
    + rewrite Hp in *. simpl in Hl. by destruct ps.
  - injection Hstep as <-. by exists now, rest.
  - injection Hstep as <-. by exists now, rest.
Qed.

Lemma run_shape (evs : list Event) (st st' : AppState) :
  transcriptShape st -> run st evs = Some st' -> transcriptShape st'.
Proof.
  revert st. induction evs as [|ev evs IH]; intros st Hs Hr; simpl in Hr.
  - by injection Hr as <-.
  - destruct (step st ev) as [st1|] eqn:E; [|done].
    eapply IH; [|exact Hr]. by eapply step_shape.
Qed.

Lemma reachable_shape (st : AppState) : reachable st -> transcriptShape st.
Proof.
  intros (now & storage & evs & Hr).
  eapply run_shape; [apply initialState_shape | exact Hr].
Qed.

(** C9. The transcript starts as the single greeting. In every state
    the component can reach: while idle, an event either leaves the
    transcript as it is or is an accepted send, which appends one [user]
    message and starts awaiting; while awaiting, an event either leaves
    the transcript as it is or is the pending call settling, which appends
    one [model] message, with the response or with the fixed failure text,
    and returns to idle. So whenever the controller is idle the transcript
    is the greeting followed by pairs of a [user] and a [model] message,
    and its length is odd. *)
Theorem transcript_parity (st : AppState) (H : reachable st) :
  (forall now storage,
     chatMessages (initialState now storage) = [welcome now] /\
     Idle (initialState now storage))
  /\ (Idle st ->
      Nat.Odd (length (chatMessages st)) /\
      exists now rest,
        chatMessages st = welcome now :: rest /\
        alternates (map role rest) = true)
  /\ (forall ev st',
        step st ev = Some st' ->
        if isChatLoading st
        then (AwaitingResponse st' /\ chatMessages st' = chatMessages st) \/
             (exists result uuid now,
                ev = Settled result uuid now /\ Idle st' /\
                chatMessages st' =
                chatMessages st ++ [modelMessage uuid now (replyText result)])
        else (Idle st' /\ chatMessages st' = chatMessages st) \/
             (exists uuid now,
                ev = Send uuid now /\ AwaitingResponse st' /\
                chatMessages st' =
                chatMessages st ++
                [{| msg_id := uuid; role := user; text := inputMessage st;
                    msg_timestamp := now |}])).
Proof.
  apply reachable_shape in H as (now & rest & Hc & Hs).
  split; [done|]. split.
  - unfold Idle. intros Hi. rewrite Hi in Hs. destruct Hs as [Ha _]. split.
    + rewrite Hc. simpl. apply alternates_even in Ha as [k Hk].
      rewrite length_map in Hk. exists k. lia.
    + by exists now, rest.
  - intros ev st' Hstep. unfold AwaitingResponse, Idle.
    destruct ev as [t | uuid n | result uuid n | uuid n c d det | m];
      simpl in Hstep.
    + injection Hstep as <-. simpl. destruct (isChatLoading st); by left.
    + injection Hstep as <-. unfold handleSendMessage.
      destruct (isChatLoading st) eqn:Hl.
      * rewrite orb_true_r, Hl. by left.
      * rewrite orb_false_r.
        destruct (negb (Js.truthy (Js.trim (inputMessage st)))).
        -- rewrite Hl. by left.
        -- right. by exists uuid, n.
    + destruct (pending st) as [|p ps] eqn:Hp; [done|]. injection Hstep as <-.
      destruct (isChatLoading st); [|by destruct Hs].
      right. exists result, uuid, n. by destruct result.
    + injection Hstep as <-. simpl. destruct (isChatLoading st); by left.
    + injection Hstep as <-. simpl. destruct (isChatLoading st); by left.
Qed.

Lemma transcript_parity_witness :
  reachable
    (handleSendMessage_settled (Rejected "offline") "u3" 3
       (sendUserMessage "hello" "u1" 1 (initialState 0 ∅))) /\
  Nat.Odd
    (length
       (chatMessages
          (handleSendMessage_settled (Rejected "offline") "u3" 3
             (sendUserMessage "hello" "u1" 1 (initialState 0 ∅))))).
Proof.
  assert (R : reachable
    (handleSendMessage_settled (Rejected "offline") "u3" 3
       (sendUserMessage "hello" "u1" 1 (initialState 0 ∅)))).
  { exists 0, ∅, sampleEvents. reflexivity. }
  split; [exact R|].
  exact (proj1 (proj1 (proj2 (transcript_parity _ R)) eq_refl)).
Defined.

(** ** [JSON.parse] reads back what [JSON.stringify] writes *)

Section JsonRoundTrip.

Import JSON.

Lemma append_assoc (s t u : string) : (s +:+ t) +:+ u = s +:+ (t +:+ u).
Proof.
  induction s as [|a s IH]; [done|]. by rewrite !append_cons, IH.
Qed.

Lemma append_nil_r (s : string) : s +:+ EmptyString = s.
Proof. induction s as [|a s IH]; [done|]. by rewrite append_cons, IH. Qed.

Lemma length_append (s t : string) :
  String.length (s +:+ t) = String.length s + String.length t.
Proof.
  induction s as [|a s IH]; [done|]. rewrite append_cons. simpl. by rewrite IH.
Qed.

Lemma substring_all (s : string) : String.substring 0 (String.length s) s = s.
Proof. induction s as [|a s IH]; simpl; [done | by rewrite IH]. Qed.

Lemma expect_append (word : string) (v : json) (rest : string) :
  expect word v (word +:+ rest) = Some (v, rest).
Proof.
  unfold expect.
  assert (Hp : String.prefix word (word +:+ rest) = true)
    by (apply prefix_app; by exists rest).
  rewrite Hp. do 2 f_equal. clear Hp.
  induction word as [|a w IH].
  - rewrite append_empty. simpl. rewrite Nat.sub_0_r. apply substring_all.
  - rewrite append_cons. simpl. apply IH.
Qed.

Lemma hexValue_hexDigit (k : nat) : k < 16 -> hexValue (hexDigit k) = Some k.
Proof.
  intros H. do 16 (destruct k as [|k]; [reflexivity|]). lia.
Qed.

Lemma parseChars_backslash (e : ascii) (s2 : string) :
  parseChars (String (ascii_of_nat 92) (String e s2)) =
  if Nat.eqb (nat_of_ascii e) 117
  then match s2 with
       | String h1 (String h2 (String h3 (String h4 s3))) =>
           match hexValue h1, hexValue h2, hexValue h3, hexValue h4 with
           | Some a1, Some a2, Some a3, Some a4 =>
               match parseChars s3 with
               | Some (str, rest) =>
                   Some (unitText (((a1 * 16 + a2) * 16 + a3) * 16 + a4)
                           +:+ str, rest)
               | None => None
               end
           | _, _, _, _ => None
           end
       | _ => None
       end
  else match escapeText e, parseChars s2 with
       | Some t, Some (str, rest) => Some (t +:+ str, rest)
       | _, _ => None
       end.
Proof. reflexivity. Qed.

Lemma parseChars_escape (e : ascii) (s2 : string) :
  nat_of_ascii e <> 117 ->
  parseChars (String (ascii_of_nat 92) (String e s2)) =
  match escapeText e, parseChars s2 with
  | Some t, Some (str, rest) => Some (t +:+ str, rest)
  | _, _ => None
  end.
Proof.
  intros H. apply Nat.eqb_neq in H. by rewrite parseChars_backslash, H.
Qed.

Lemma parseChars_unicode (h3 h4 : ascii) (s3 : string) :
  parseChars
    (String (ascii_of_nat 92)
       (String "u" (String "0" (String "0" (String h3 (String h4 s3)))))) =
  match hexValue h3, hexValue h4 with
  | Some a3, Some a4 =>
      match parseChars s3 with
      | Some (str, rest) => Some (unitText (a3 * 16 + a4) +:+ str, rest)
      | None => None
      end
  | _, _ => None
  end.
Proof.
  rewrite parseChars_backslash.
  change (Nat.eqb (nat_of_ascii "u") 117) with true.
  change (hexValue "0") with (Some 0). cbv beta iota.
  destruct (hexValue h3) as [a3|]; [|done].
  destruct (hexValue h4) as [a4|]; [|done].
  by rewrite !Nat.mul_0_l, !Nat.add_0_l.
Qed.

Lemma parseChars_plain (a : ascii) (s1 : string) :
  nat_of_ascii a <> 34 -> nat_of_ascii a <> 92 -> 32 <= nat_of_ascii a ->
  parseChars (String a s1) =
  match parseChars s1 with
  | Some (str, rest) => Some (String a str, rest)
  | None => None
  end.
Proof.
  intros H1 H2 H3. cbn -[Nat.eqb Nat.ltb].
  destruct (Nat.eqb_spec (nat_of_ascii a) 34); [done|].
  destruct (Nat.eqb_spec (nat_of_ascii a) 92); [done|].
  destruct (Nat.ltb_spec (nat_of_ascii a) 32); [lia|done].
Qed.

Lemma parseChars_quoteChar (a : ascii) (tail : string) :
  parseChars (quoteChar a +:+ tail) =
  match parseChars tail with
  | Some (str, rest) => Some (String a str, rest)
  | None => None
  end.
Proof.
  unfold quoteChar.
  pose proof (ascii_nat_embedding a) as Ha.
  pose proof (nat_ascii_bounded a) as Hb.
  remember (nat_of_ascii a) as n eqn:Hn.
  assert (Hesc : forall e c, escapeText e = Some (String (ascii_of_nat c) EmptyString) ->
            nat_of_ascii e <> 117 -> n = c ->
            parseChars (String (ascii_of_nat 92) (String e tail)) =
            match parseChars tail with
            | Some (str, rest) => Some (String a str, rest)
            | None => None
            end).
  { intros e c He Hne ->. rewrite parseChars_escape, He by done.
    destruct (parseChars tail) as [[str rest]|]; [|done].
    by rewrite append_cons, append_empty, Ha. }
  destruct (Nat.eqb n 34 || Nat.eqb n 92) eqn:E.
  { rewrite !append_cons, append_empty.
    apply orb_prop in E as [E%Nat.eqb_eq | E%Nat.eqb_eq].
    - apply (Hesc a 34); [|lia|done]. unfold escapeText. by rewrite <- Hn, E.
    - apply (Hesc a 92); [|lia|done]. unfold escapeText. by rewrite <- Hn, E. }
  apply orb_false_elim in E as [E%Nat.eqb_neq E0%Nat.eqb_neq].
  destruct (Nat.eqb_spec n 8) as [E1|E1]; cbv iota;
    [rewrite !append_cons, append_empty;
     apply (Hesc "b"%char 8); [reflexivity | discriminate | exact E1]|].
  destruct (Nat.eqb_spec n 12) as [E2|E2]; cbv iota;
    [rewrite !append_cons, append_empty;
     apply (Hesc "f"%char 12); [reflexivity | discriminate | exact E2]|].
  destruct (Nat.eqb_spec n 10) as [E3|E3]; cbv iota;
    [rewrite !append_cons, append_empty;
     apply (Hesc "n"%char 10); [reflexivity | discriminate | exact E3]|].
  destruct (Nat.eqb_spec n 13) as [E4|E4]; cbv iota;
    [rewrite !append_cons, append_empty;
     apply (Hesc "r"%char 13); [reflexivity | discriminate | exact E4]|].
  destruct (Nat.eqb_spec n 9) as [E5|E5]; cbv iota;
    [rewrite !append_cons, append_empty;
     apply (Hesc "t"%char 9); [reflexivity | discriminate | exact E5]|].
  destruct (Nat.ltb_spec n 32) as [E6|E6]; cbv iota.
  - rewrite !append_cons, append_empty, parseChars_unicode.
    rewrite !hexValue_hexDigit
      by (try apply Nat.mod_upper_bound; try apply Nat.Div0.div_lt_upper_bound; lia).
    destruct (parseChars tail) as [[str rest]|]; [|done].
    rewrite (Nat.mul_comm (n / 16)), <- Nat.div_mod_eq.
    unfold unitText. destruct (Nat.ltb_spec n 128); [|lia].
    by rewrite append_cons, append_empty, Ha.
  - rewrite append_cons, append_empty. apply parseChars_plain; lia.
Qed.

Lemma parseChars_quoteChars (s tail : string) :
  parseChars (quoteChars s +:+ tail) =
  match parseChars tail with
  | Some (str, rest) => Some (s +:+ str, rest)
  | None => None
  end.
Proof.
  induction s as [|a s IH].
  - rewrite append_empty. by destruct (parseChars tail) as [[]|].
  - change (quoteChars (String a s)) with (quoteChar a +:+ quoteChars s).
    rewrite append_assoc, parseChars_quoteChar, IH.
    by destruct (parseChars tail) as [[]|].
Qed.

(** A quoted string, read after its opening quote. *)
Lemma parseChars_quoted (s rest : string) :
  parseChars (quoteChars s +:+ String (ascii_of_nat 34) rest) = Some (s, rest).
Proof.
  rewrite parseChars_quoteChars.
  change (parseChars (String (ascii_of_nat 34) rest)) with (Some (EmptyString, rest)).
  cbv beta iota. by rewrite append_nil_r.
Qed.

(** Induction on JSON values, with the property available for the
    elements of an array and the members of an object. *)
Lemma json_nested_ind (P : json -> Prop) :
  P JNull -> (forall b, P (JBool b)) -> (forall lexeme, P (JNumber lexeme)) ->
  (forall s, P (JString s)) ->
  (forall elements, Forall P elements -> P (JArray elements)) ->
  (forall members, Forall (fun kv => P (snd kv)) members -> P (JObject members)) ->
  forall v, P v.
Proof.
  intros Hnull Hbool Hnum Hstr Harr Hobj.
  fix IH 1. intros [| b | lexeme | s | elements | members].
  - exact Hnull.
  - apply Hbool.
  - apply Hnum.
  - apply Hstr.
  - apply Harr. induction elements as [|e l IHl]; constructor; [apply IH | exact IHl].
  - apply Hobj. induction members as [|[k v] l IHl]; constructor; [apply IH | exact IHl].
Qed.

Lemma skipSpace_nonspace (a : ascii) (s : string) :
  isJsonSpace a = false -> skipSpace (String a s) = String a s.
Proof. intros H. simpl. by rewrite H. Qed.

Lemma parseElements_S (fuel : nat) (s : string) (acc : list json) :
  parseElements (S fuel) s acc =
  match parseValue fuel s with
  | Some (v, s1) =>
      match skipSpace s1 with
      | String a s2 =>
          if Nat.eqb (nat_of_ascii a) 44
          then parseElements fuel s2 (v :: acc)
          else if Nat.eqb (nat_of_ascii a) 93
          then Some (JArray (List.rev (v :: acc)), s2)
          else None
      | EmptyString => None
      end
  | None => None
  end.
Proof. reflexivity. Qed.

Lemma parseMembers_S (fuel : nat) (s1 : string) (acc : list (string * json)) :
  parseMembers (S fuel) (String (ascii_of_nat 34) s1) acc =
  match parseChars s1 with
  | Some (k, s2) =>
      match skipSpace s2 with
      | String c s3 =>
          if Nat.eqb (nat_of_ascii c) 58 then
            match parseValue fuel s3 with
            | Some (v, s4) =>
                match skipSpace s4 with
                | String a s5 =>
                    if Nat.eqb (nat_of_ascii a) 44
                    then parseMembers fuel s5 (define k v acc)
                    else if Nat.eqb (nat_of_ascii a) 125
                    then Some (JObject (define k v acc), s5)
                    else None
                | EmptyString => None
                end
            | None => None
            end
          else None
      | EmptyString => None
      end
  | None => None
  end.
Proof. reflexivity. Qed.

Lemma stringify_opens (v : json) :
  canonical v -> exists a t, stringify v = String a t /\ opens a.
Proof.
  destruct v as [| [] | lexeme | s | elements | members]; intros Hc;
    try done; eexists _, _; (split; [reflexivity|]); by repeat split.
Qed.

Lemma join_cons (x y : string) (l : list string) :
  join (x :: y :: l) = x +:+ "," +:+ join (y :: l).
Proof. reflexivity. Qed.

Lemma define_fresh (k : string) (v : json) (acc : list (string * json)) :
  k ∉ map fst acc -> define k v acc = acc ++ [(k, v)].
Proof.
  induction acc as [|[k' v'] acc IH]; intros H; simpl; [done|].
  simpl in H. apply not_elem_of_cons in H as [Hne H].
  destruct (String.eqb_spec k k'); [done|]. by rewrite IH.
Qed.

Lemma parseValue_null (f : nat) (rest : string) :
  parseValue (S f) ("null" +:+ rest) = Some (JNull, rest).
Proof.
  change (parseValue (S f) ("null" +:+ rest))
    with (expect "null" JNull ("null" +:+ rest)).
  apply expect_append.
Qed.

Lemma parseValue_true (f : nat) (rest : string) :
  parseValue (S f) ("true" +:+ rest) = Some (JBool true, rest).
Proof.
  change (parseValue (S f) ("true" +:+ rest))
    with (expect "true" (JBool true) ("true" +:+ rest)).
  apply expect_append.
Qed.

Lemma parseValue_false (f : nat) (rest : string) :
  parseValue (S f) ("false" +:+ rest) = Some (JBool false, rest).
Proof.
  change (parseValue (S f) ("false" +:+ rest))
    with (expect "false" (JBool false) ("false" +:+ rest)).
  apply expect_append.
Qed.

Lemma parseValue_string (f : nat) (s rest : string) :
  parseValue (S f) (quote s +:+ rest) = Some (JString s, rest).
Proof.
  unfold quote. rewrite !append_assoc, !append_cons, !append_empty.
  set (t := quoteChars s +:+ _).
  change (parseValue (S f) (String (ascii_of_nat 34) t))
    with (match parseChars t with
          | Some (str, rest) => Some (JString str, rest)
          | None => None
          end).
  subst t. by rewrite parseChars_quoted.
Qed.

Lemma parseValue_bracket (f : nat) (a : ascii) (t : string) :
  opens a ->
  parseValue (S f) (String "[" (String a t)) = parseElements f (String a t) [].
Proof.
  intros (Hs & Hb & _).
  change (parseValue (S f) (String "[" (String a t)))
    with (match skipSpace (String a t) with
          | String b s2 =>
              if Nat.eqb (nat_of_ascii b) 93 then Some (JArray [], s2)
              else parseElements f (String a t) []
          | EmptyString => None
          end).
  rewrite skipSpace_nonspace by done. apply Nat.eqb_neq in Hb. by rewrite Hb.
Qed.

Lemma parseValue_brace (f : nat) (t : string) :
  parseValue (S f) (String "{" (String (ascii_of_nat 34) t)) =
  parseMembers f (String (ascii_of_nat 34) t) [].
Proof. reflexivity. Qed.

Lemma parseElements_join (l : list json) :
  Forall readsBack l -> l <> [] ->
  fold_right (fun e P => canonical e /\ P) True l ->
  forall acc fuel rest,
    list_sum (map (fun e => S (size e)) l) <= fuel ->
    parseElements fuel (join (map stringify l) +:+ String "]" rest) acc =
    Some (JArray (List.rev acc ++ l), rest).
Proof.
  induction 1 as [|e l He Hl IH]; [done|]. intros _ [Hce Hcl] acc fuel rest Hf.
  simpl in Hf. destruct fuel as [|f]; [lia|]. rewrite parseElements_S.
  destruct l as [|e' l'].
  - change (join (map stringify [e])) with (stringify e).
    rewrite (He Hce) by (simpl in Hf; lia).
    change (skipSpace (String "]" rest)) with (String "]" rest).
    cbv beta iota.
    change (Nat.eqb (nat_of_ascii "]") 44) with false.
    change (Nat.eqb (nat_of_ascii "]") 93) with true.
    cbv iota. reflexivity.
  - change (map stringify (e :: e' :: l'))
      with (stringify e :: stringify e' :: map stringify l').
    rewrite join_cons, !append_assoc, append_cons, append_empty.
    rewrite (He Hce) by (simpl in Hf; lia).
    change (skipSpace (String "," ?x)) with (String "," x).
    cbv beta iota.
    change (Nat.eqb (nat_of_ascii ",") 44) with true. cbv iota.
    change (stringify e' :: map stringify l') with (map stringify (e' :: l')).
    rewrite IH; [|done|done|lia].
    simpl. by rewrite <- app_assoc.
Qed.

Lemma parseMembers_join (ms : list (string * json)) :
  Forall (fun kv => readsBack (snd kv)) ms -> ms <> [] ->
  fold_right (fun kv P => canonical (snd kv) /\ P) True ms ->
  forall acc fuel rest,
    NoDup (map fst (acc ++ ms)) ->
    list_sum (map (fun kv => S (size (snd kv))) ms) <= fuel ->
    parseMembers fuel
      (join (map (fun kv => quote (fst kv) +:+ ":" +:+ stringify (snd kv)) ms)
       +:+ String "}" rest) acc =
    Some (JObject (acc ++ ms), rest).
Proof.
  induction 1 as [|[k v] ms Hv Hms IH]; [done|].
  intros _ [Hcv Hcms] acc fuel rest Hnd Hf.
  simpl in Hf, Hv. destruct fuel as [|f]; [lia|].
  assert (Hk : k ∉ map fst acc).
  { rewrite map_app in Hnd. apply NoDup_app in Hnd as (_ & Hd & _).
    intros Hin. apply (Hd k Hin). simpl. left. }
  assert (Hnd' : NoDup (map fst ((acc ++ [(k, v)]) ++ ms)))
    by (by rewrite <- app_assoc).
  destruct ms as [|kv' ms'].
  - cbn [map join fst snd]. unfold quote.
    rewrite !append_assoc, !append_cons, !append_empty, parseMembers_S.
    rewrite parseChars_quoted.
    change (skipSpace (String ":" ?x)) with (String ":" x). cbv beta iota.
    change (Nat.eqb (nat_of_ascii ":") 58) with true. cbv iota.
    rewrite (Hv Hcv) by lia.
    change (skipSpace (String "}" rest)) with (String "}" rest).
    cbv beta iota.
    change (Nat.eqb (nat_of_ascii "}") 44) with false.
    change (Nat.eqb (nat_of_ascii "}") 125) with true. cbv iota.
    by rewrite define_fresh.
  - change (map ?g ((k, v) :: kv' :: ms'))
      with (g (k, v) :: g kv' :: map g ms').
    rewrite join_cons. set (J := join _). cbn [fst snd]. unfold quote.
    rewrite !append_assoc, !append_cons, !append_empty, parseMembers_S.
    rewrite parseChars_quoted.
    change (skipSpace (String ":" ?x)) with (String ":" x). cbv beta iota.
    change (Nat.eqb (nat_of_ascii ":") 58) with true. cbv iota.
    rewrite (Hv Hcv) by lia.
    change (skipSpace (String "," ?x)) with (String "," x). cbv beta iota.
    change (Nat.eqb (nat_of_ascii ",") 44) with true. cbv iota.
    rewrite define_fresh by done.
    replace (acc ++ (k, v) :: kv' :: ms')
      with ((acc ++ [(k, v)]) ++ kv' :: ms') by (by rewrite <- app_assoc).
    apply IH; [done | done | done | simpl in *; lia].
Qed.


Lemma join_head (x : string) (l : list string) :
  exists t, join (x :: l) = x +:+ t.
Proof.
  destruct l as [|y l].
  - exists EmptyString. by rewrite append_nil_r.
  - by exists ("," +:+ join (y :: l)).
Qed.

Lemma parseValue_stringify (v : json) : readsBack v.
Proof.
  induction v as [| b | lexeme | s | l IH | ms IH] using json_nested_ind;
    intros Hc fuel rest Hf; (destruct fuel as [|f]; [simpl in Hf; lia|]).
  - apply parseValue_null.
  - destruct b; [apply parseValue_true | apply parseValue_false].
  - done.
  - apply parseValue_string.
  - destruct l as [|e l]; [reflexivity|].
    assert (Hfuel : list_sum (map (fun e => S (size e)) (e :: l)) <= f)
      by (simpl in Hf; simpl; lia).
    pose proof (parseElements_join (e :: l) IH ltac:(done) Hc [] f rest Hfuel)
      as Hl.
    change (stringify (JArray (e :: l)))
      with ("[" +:+ join (map stringify (e :: l)) +:+ "]").
    set (J := join (map stringify (e :: l))) in *.
    rewrite !append_assoc, !append_cons, !append_empty.
    destruct (stringify_opens e) as (a & t & He & Ha); [apply Hc|].
    destruct (join_head (stringify e) (map stringify l)) as [t' HJ].
    change (join (stringify e :: map stringify l)) with J in HJ.
    rewrite He, append_cons in HJ. rewrite HJ, append_cons in *.
    by rewrite parseValue_bracket.
  - destruct ms as [|[k v] ms]; [reflexivity|].
    destruct Hc as [Hnd Hc].
    assert (Hfuel :
      list_sum (map (fun kv => S (size (snd kv))) ((k, v) :: ms)) <= f)
      by (simpl in Hf; simpl; lia).
    pose proof (parseMembers_join ((k, v) :: ms) IH ltac:(done) Hc [] f rest
                  Hnd Hfuel) as Hl.
    change (stringify (JObject ((k, v) :: ms)))
      with ("{" +:+
            join (map (fun kv => quote (fst kv) +:+ ":" +:+ stringify (snd kv))
                    ((k, v) :: ms)) +:+ "}").
    set (J := join _) in *.
    rewrite !append_assoc, !append_cons, !append_empty.
    destruct (join_head (quote k +:+ ":" +:+ stringify v)
                (map (fun kv => quote (fst kv) +:+ ":" +:+ stringify (snd kv)) ms))
      as [t' HJ].
    change (join _) with J in HJ.
    unfold quote in HJ. rewrite !append_assoc, !append_cons, !append_empty in HJ.
    rewrite HJ, append_cons in *. by rewrite parseValue_brace.
Qed.

Lemma sum_le_length_join {A : Type} (w : A -> nat) (txt : A -> string)
    (l : list A) :
  Forall (fun x => w x <= String.length (txt x)) l ->
  list_sum (map (fun x => S (w x)) l) <= S (String.length (join (map txt l))).
Proof.
  induction 1 as [|x l Hx Hl IH]; simpl; [lia|].
  destruct l as [|y l]; simpl in *; [lia|].
  rewrite !length_append. simpl. lia.
Qed.

Lemma size_le_length (v : json) :
  canonical v -> size v <= String.length (stringify v).
Proof.
  induction v as [| b | lexeme | s | l IH | ms IH] using json_nested_ind;
    intros Hc.
  - simpl. lia.
  - destruct b; simpl; lia.
  - done.
  - simpl. unfold quote. rewrite !length_append. simpl. lia.
  - change (stringify (JArray l)) with ("[" +:+ join (map stringify l) +:+ "]").
    rewrite !length_append. simpl.
    pose proof (sum_le_length_join size stringify l) as H.
    assert (Hl : Forall (fun x => size x <= String.length (stringify x)) l).
    { clear H. induction IH as [|e l He Hl IHl]; constructor.
      - apply He, Hc.
      - apply IHl, Hc. }
    specialize (H Hl). lia.
  - change (stringify (JObject ms))
      with ("{" +:+
            join (map (fun kv => quote (fst kv) +:+ ":" +:+ stringify (snd kv)) ms)
            +:+ "}").
    rewrite !length_append. simpl.
    pose proof (sum_le_length_join (fun kv => size (snd kv))
                  (fun kv => quote (fst kv) +:+ ":" +:+ stringify (snd kv)) ms) as H.
    destruct Hc as [_ Hc].
    assert (Hl : Forall (fun kv => size (snd kv) <=
                  String.length (quote (fst kv) +:+ ":" +:+ stringify (snd kv))) ms).
    { clear H. induction IH as [|kv l He Hl IHl]; constructor.
      - rewrite !length_append. specialize (He (proj1 Hc)). lia.
      - apply IHl, Hc. }
    specialize (H Hl). lia.
Qed.

(** [JSON.parse] readsBack back what [JSON.stringify] writes. *)
Lemma parse_stringify (v : json) :
  canonical v -> parse (stringify v) = Some v.
Proof.
  intros Hc. unfold parse.
  rewrite <- (append_nil_r (stringify v)) at 2.
  rewrite (parseValue_stringify v Hc).
  - reflexivity.
  - pose proof (size_le_length v Hc). lia.
Qed.

Lemma canonical_strings (ds : list string) :
  canonical (JArray (map JString ds)).
Proof. induction ds as [|d ds IH]; simpl; [done | by split]. Qed.

Lemma canonical_valueJson (v : MemoryValue) : canonical (valueJson v).
Proof.
  destruct v as [d [ds|]]; unfold valueJson; cbn [description details].
  - split; [apply (bool_decide_unpack _); reflexivity|].
    exact (conj I (conj (canonical_strings ds) I)).
  - split; [apply (bool_decide_unpack _); reflexivity|].
    exact (conj I I).
Qed.

Lemma canonical_itemJson (item : MemoryItem) : canonical (itemJson item).
Proof.
  destruct item as [i t v]. unfold itemJson. cbn [id timestamp value].
  split; [apply (bool_decide_unpack _); reflexivity|].
  exact (conj I (conj I (conj (canonical_valueJson v) I))).
Qed.

Lemma canonical_items (items : list MemoryItem) :
  fold_right (fun e P => canonical e /\ P) True (map itemJson items).
Proof.
  induction items as [|x l IH]; simpl; [done|].
  split; [apply canonical_itemJson | exact IH].
Qed.

Lemma canonical_storeJson (m : MemoryStore) : canonical (storeJson m).
Proof.
  destruct m as [s d t]. unfold storeJson. cbn [struggles development mindset].
  split; [apply (bool_decide_unpack _); reflexivity|].
  exact (conj (canonical_items s) (conj (canonical_items d)
           (conj (canonical_items t) I))).
Qed.

(** The persistence round trip: the text [onSave] stores parses to the
    store it was written from. *)
Lemma parse_stringify_store (m : MemoryStore) :
  JSON.parse (JSON.stringify (storeJson m)) = Some (storeJson m).
Proof. apply parse_stringify, canonical_storeJson. Qed.

End JsonRoundTrip.

(** ** Persistence *)

Lemma load_unfold (storage : gmap string string) :
  load storage =
  match storage !! "lucy_memory" with
  | Some storedMemory =>
      if Js.truthy storedMemory then
        match JSON.parse storedMemory with
        | Some v => Returns v
        | None => Raises SyntaxError
        end
      else Returns (storeJson DEFAULT_MEMORY)
  | None => Returns (storeJson DEFAULT_MEMORY)
  end.
Proof.
  unfold load, loadMemory.
  destruct (storage !! "lucy_memory") as [s|]; [|done].
  destruct (Js.truthy s); [|done]. by destruct (JSON.parse s).
Qed.

(** The typed reading of a value written by [storeJson] is the store. *)
Lemma asItems_itemJson (items : list MemoryItem) :
  mapM asItem (map itemJson items) = Some items.
Proof.
  induction items as [|x l IH]; [done|].
  change (mapM asItem (map itemJson (x :: l)))
    with (asItem (itemJson x) ≫= λ y,
          mapM asItem (map itemJson l) ≫= λ k, Some (y :: k)).
  by rewrite asItem_itemJson, IH.
Qed.

Lemma asMemoryStore_storeJson (m : MemoryStore) :
  asMemoryStore (storeJson m) = Some m.
Proof.
  destruct m as [s d t]. unfold asMemoryStore, storeJson, asItems. simpl.
  by rewrite !asItems_itemJson.
Qed.

(** What [onSave] writes is read back as the store it wrote. *)
Example load_savedStorage :
  load savedStorage = Returns (storeJson sampleStore).
Proof. vm_compute. reflexivity. Qed.

(** Stored text that does not parse makes the whole effect raise: the
    theme and the permissions are not read either. *)
Lemma persistenceEffect_raises (storage : gmap string string) (cells : Cells)
    (s : string) :
  storage !! "lucy_memory" = Some s -> Js.truthy s = true ->
  JSON.parse s = None ->
  persistenceEffect storage cells = Raises SyntaxError.
Proof.
  intros Hs Ht Hp. unfold persistenceEffect, loadMemory.
  by rewrite Hs, Ht, Hp.
Qed.

Lemma truthy_stringify_store (m : MemoryStore) :
  Js.truthy (JSON.stringify (storeJson m)) = true.
Proof. reflexivity. Qed.

(** What [onSave] stores is read back by [load] as the store it wrote. *)
Lemma load_after_onSave (uuid now : string) (c : Category) (d : string)
    (det : list string) (st : AppState) :
  load (localStorage (onSave uuid now c d det st)) =
  Returns (storeJson (memory (onSave uuid now c d det st))).
Proof.
  rewrite load_unfold. unfold onSave at 1. cbn [localStorage].
  by rewrite lookup_insert_eq, truthy_stringify_store, parse_stringify_store.
Qed.

(** C1, as the code has it. For every content of the storage: when no
    text is stored under the memory key, or the empty text, [load] returns
    and the store is the empty default store; when a text is stored that
    parses, [load] returns and the store is the parsed value, which for
    the text written from a store is that store; when a text is stored
    that does not parse, [load] raises the [SyntaxError] of the parser. *)
Theorem load_absent_parsed_or_raises (storage : gmap string string) :
  (storage !! "lucy_memory" = None \/
   storage !! "lucy_memory" = Some EmptyString ->
   load storage = Returns (storeJson DEFAULT_MEMORY) /\
   asMemoryStore (storeJson DEFAULT_MEMORY) = Some DEFAULT_MEMORY)
  /\ (forall s v,
        storage !! "lucy_memory" = Some s -> s <> EmptyString ->
        JSON.parse s = Some v ->
        load storage = Returns v)
  /\ (forall m,
        storage !! "lucy_memory" = Some (JSON.stringify (storeJson m)) ->
        load storage = Returns (storeJson m) /\
        asMemoryStore (storeJson m) = Some m)
  /\ (forall s,
        storage !! "lucy_memory" = Some s -> s <> EmptyString ->
        JSON.parse s = None ->
        load storage = Raises SyntaxError).
Proof.
  rewrite load_unfold. split; [|split; [|split]].
  - intros [-> | ->]; split; reflexivity.
  - intros s v -> Hs Hp. destruct s; [done|]. simpl. by rewrite Hp.
  - intros m ->.
    by rewrite truthy_stringify_store, parse_stringify_store,
         asMemoryStore_storeJson.
  - intros s -> Hs Hp. destruct s; [done|]. simpl. by rewrite Hp.
Qed.

Lemma load_absent_parsed_or_raises_witness :
  load (∅ : gmap string string) = Returns (storeJson DEFAULT_MEMORY)
  /\ load savedStorage = Returns (storeJson sampleStore)
  /\ load corruptStorage = Raises SyntaxError.
Proof.
  split; [|split].
  - exact (proj1 (proj1 (load_absent_parsed_or_raises ∅) (or_introl eq_refl))).
  - exact (proj1 (proj1 (proj2 (proj2 (load_absent_parsed_or_raises savedStorage)))
                    sampleStore eq_refl)).
  - refine (proj2 (proj2 (proj2 (load_absent_parsed_or_raises corruptStorage)))
             "{oops" eq_refl _ _).
    + discriminate.
    + vm_compute. reflexivity.
Defined.

(** C1, as it is stated, fails: with a text under the memory key that is
    not JSON, [load] raises instead of returning the default store. *)
Lemma load_corrupt_raises :
  corruptStorage !! "lucy_memory" = Some "{oops"
  /\ JSON.parse "{oops" = None
  /\ load corruptStorage = Raises SyntaxError
  /\ load corruptStorage <> Returns (storeJson DEFAULT_MEMORY)
  /\ persistenceEffect corruptStorage initialCells = Raises SyntaxError.
Proof.
  assert (E : load corruptStorage = Raises SyntaxError)
    by (vm_compute; reflexivity).
  repeat split; try (vm_compute; reflexivity).
  by rewrite E.
Qed.

(** * Further properties of the component *)

(** ** The store and its persistence *)

(** X1. What [onSave] stores is read back, at the next start, as the store
    it has just produced: [load] returns its JSON value, and the typed
    reading of that value is the store. *)
Theorem save_then_load (uuid now : string) (c : Category) (d : string)
    (det : list string) (st : AppState) :
  load (localStorage (onSave uuid now c d det st)) =
    Returns (storeJson (memory (onSave uuid now c d det st)))
  /\ asMemoryStore (storeJson (memory (onSave uuid now c d det st))) =
       Some (memory (onSave uuid now c d det st)).
Proof. split; [apply load_after_onSave | apply asMemoryStore_storeJson]. Qed.

Lemma step_inSync (st st' : AppState) (ev : Event) :
  step st ev = Some st' -> isLoaded ev = false ->
  (isSaved ev = true -> inSync st') /\ (inSync st -> inSync st').
Proof.
  unfold inSync. intros Hs Hl.
  destruct ev as [t | uuid n | result uuid n | uuid n c d det | m];
    simpl in *; try done.
  - injection Hs as <-. by split.
  - injection Hs as <-. split; [done|]. unfold handleSendMessage.
    by destruct (negb _ || _).
  - destruct (pending st); [done|]. injection Hs as <-. by split.
  - injection Hs as <-. split; intros _; apply load_after_onSave.
Qed.

(** X2. The stored memory follows the store: along any events other than
    the start-up load, once the storage agrees with the store (or as soon
    as a record is saved) what [load] would read is the current store. *)
Theorem inSync_kept (st st' : AppState) (evs : list Event)
    (Hrun : run st evs = Some st')
    (Hevs : forallb (fun ev => negb (isLoaded ev)) evs = true)
    (Hst : inSync st \/ existsb isSaved evs = true) :
  inSync st'.
Proof.
  revert st Hrun Hst. induction evs as [|ev evs IH]; intros st Hrun Hst.
  - simpl in *. injection Hrun as <-. by destruct Hst.
  - simpl in Hrun, Hevs, Hst. apply andb_prop in Hevs as [Hl Hevs].
    apply negb_true_iff in Hl.
    destruct (step st ev) as [st1|] eqn:E; [|done].
    destruct (step_inSync _ _ _ E Hl) as [Hsaved Hkept].
    apply (IH Hevs st1 Hrun).
    destruct Hst as [Hst | Hst]; [left; auto|].
    apply orb_prop in Hst as [Hst | Hst]; [left; auto | by right].
Qed.

Lemma inSync_kept_witness :
  inSync (onSave "1" "t" Category.mindset "Calm" [] (initialState 0 ∅)).
Proof.
  apply (inSync_kept (initialState 0 ∅) _
           [Saved "1" "t" Category.mindset "Calm" []]);
    [reflexivity | reflexivity | right; reflexivity].
Defined.

Lemma step_grows (st st' : AppState) (ev : Event) :
  step st ev = Some st' -> isLoaded ev = false ->
  (forall c, get (memory st) c `suffix_of` get (memory st') c) /\
  count (memory st') = count (memory st) + (if isSaved ev then 1 else 0).
Proof.
  intros Hs Hl.
  destruct ev as [t | uuid n | result uuid n | uuid n c d det | m];
    simpl in *; try done.
  - injection Hs as <-. simpl. split; [done | lia].
  - injection Hs as <-. unfold handleSendMessage.
    destruct (negb _ || _); simpl; (split; [done | lia]).
  - destruct (pending st); [done|]. injection Hs as <-. simpl.
    split; [done | lia].
  - injection Hs as <-. rewrite onSave_memory. split.
    + intros c'. destruct (decide (c' = c)) as [->|Hne].
      * rewrite get_set_eq. by apply suffix_cons_r.
      * by rewrite get_set_ne.
    + unfold count. destruct c, (memory st); simpl; lia.
Qed.

(** X3. Records are only ever added: along any events other than the
    start-up load, each category keeps its former list as the tail of the
    new one, and the number of records grows by the number of saves. *)
Theorem store_only_grows (st st' : AppState) (evs : list Event)
    (Hrun : run st evs = Some st')
    (Hevs : forallb (fun ev => negb (isLoaded ev)) evs = true) :
  (forall c, get (memory st) c `suffix_of` get (memory st') c)
  /\ count (memory st') = count (memory st) + length (List.filter isSaved evs).
Proof.
  revert st Hrun. induction evs as [|ev evs IH]; intros st Hrun.
  - simpl in *. injection Hrun as <-. split; [done | lia].
  - simpl in Hrun, Hevs. apply andb_prop in Hevs as [Hl Hevs].
    apply negb_true_iff in Hl.
    destruct (step st ev) as [st1|] eqn:E; [|done].
    destruct (step_grows _ _ _ E Hl) as [Hsuf Hcount].
    destruct (IH Hevs st1 Hrun) as [Hsuf' Hcount']. split.
    + intros c. destruct (Hsuf c) as [k1 E1], (Hsuf' c) as [k2 E2].
      exists (k2 ++ k1). by rewrite E2, E1, app_assoc.
    + rewrite Hcount', Hcount. simpl. destruct (isSaved ev); simpl; lia.
Qed.

Lemma store_only_grows_witness :
  count (memory (onSave "1" "t" Category.mindset "Calm" [] sampleState)) =
  count (memory sampleState) + 1.
Proof.
  exact (proj2 (store_only_grows sampleState _
                  [Typed "hi"; Saved "1" "t" Category.mindset "Calm" []]
                  eq_refl eq_refl)).
Defined.

(** ** Searching *)

Lemma containsIgnoringCase_within (s pre q post : string) :
  containsIgnoringCase s (pre +:+ q +:+ post) -> containsIgnoringCase s q.
Proof.
  intros (a & mid & b & -> & Hm).
  apply equalIgnoringCase_toLowerCase in Hm. rewrite !toLowerCase_app in Hm.
  apply toLowerCase_split in Hm as (p' & r & -> & _ & Hr).
  apply toLowerCase_split in Hr as (q' & t' & -> & Hq & _).
  exists (a +:+ p'), q', (t' +:+ b).
  split; [by rewrite !append_assoc | by apply equalIgnoringCase_toLowerCase].
Qed.

Lemma matchesQuery_within (pre q post : string) (item : MemoryItem) :
  matchesQuery (pre +:+ q +:+ post) item -> matchesQuery q item.
Proof.
  intros [H | (ds & d & Hds & Hin & H)].
  - left. by eapply containsIgnoringCase_within.
  - right. exists ds, d. repeat split; try done.
    by eapply containsIgnoringCase_within.
Qed.

Lemma search_In (m : MemoryStore) (f : JournalFilter) (q : string)
    (c : Category) (item : MemoryItem) :
  In (c, item) (search m f q) <->
  In (c, item) (filterByCategory m f) /\ matchesQuery q item.
Proof.
  unfold search, filterByCategory.
  rewrite renderJournal_filter, filter_In. simpl.
  by rewrite keeps_matchesQuery.
Qed.

(** X4. Typing more can only narrow the search: a record that is a
    result for a query is a result for each text the query contains. The
    query and the texts of the record are of the ASCII range, where the
    case mapping of the component goes letter by letter. *)
Theorem search_narrows (m : MemoryStore) (f : JournalFilter)
    (pre q post : string) (c : Category) (item : MemoryItem)
    (Hq : Js.isASCII (pre +:+ q +:+ post) = true)
    (Hi : asciiItem item = true)
    (H : In (c, item) (search m f (pre +:+ q +:+ post))) :
  In (c, item) (search m f q).
Proof.
  apply search_In in H as [Hin Hm]. apply search_In. split; [done|].
  by eapply matchesQuery_within.
Qed.

Lemma search_narrows_witness :
  In (Category.mindset, oldRecord) (search sampleStore all "rout").
Proof.
  apply (search_narrows sampleStore all "Morning " "rout" "ine");
    [reflexivity | reflexivity |].
  vm_compute. left. reflexivity.
Defined.

Lemma toLowerCase_truthy (q : string) :
  Js.truthy (Js.toLowerCase q) = Js.truthy q.
Proof. by destruct q. Qed.

Lemma itemPredicate_case (q1 q2 : string) (item : MemoryItem) :
  Js.toLowerCase q1 = Js.toLowerCase q2 ->
  itemPredicate q1 item = itemPredicate q2 item.
Proof.
  intros H. unfold itemPredicate.
  rewrite <- (toLowerCase_truthy q1), <- (toLowerCase_truthy q2), H.
  reflexivity.
Qed.

(** X5. The case of the letters of the query does not matter: two queries
    with the same lower-case form give the same results in the same
    order. *)
Theorem search_ignores_query_case (m : MemoryStore) (f : JournalFilter)
    (q1 q2 : string) (H : Js.toLowerCase q1 = Js.toLowerCase q2) :
  search m f q1 = search m f q2.
Proof.
  unfold search, renderJournal.
  induction (List.filter (shows f) journalCategories) as [|cat l IH];
    simpl; [done|].
  rewrite IH. f_equal. f_equal. unfold filteredItems.
  apply filter_ext. intros item. by rewrite (itemPredicate_case q1 q2).
Qed.

Lemma search_ignores_query_case_witness :
  search sampleStore all "MORNING" = search sampleStore all "morning".
Proof. apply search_ignores_query_case. reflexivity. Defined.

Lemma filter_sublist_of {A : Type} (keep : A -> bool) (l : list A) :
  List.filter keep l `sublist_of` l.
Proof.
  induction l as [|x l IH]; simpl; [done|].
  destruct (keep x); [by apply sublist_skip | by apply sublist_cons].
Qed.

(** X6. Searching and choosing a category only ever remove cards: the
    results of a search are, in order, among the items of the category
    filter, the results for one category are, in order, among the results
    for all categories, and every card shows an item of the list of the
    category it is shown under. *)
Theorem search_only_removes (m : MemoryStore) (f : JournalFilter) (q : string)
    (c : Category) :
  search m f q `sublist_of` filterByCategory m f
  /\ search m (only c) q `sublist_of` search m all q
  /\ (forall item, In (c, item) (search m f q) -> In item (get m c)).
Proof.
  split; [|split].
  - unfold search, filterByCategory. rewrite renderJournal_filter.
    apply filter_sublist_of.
  - unfold search. rewrite renderJournal_all, renderJournal_only.
    destruct c.
    + apply sublist_inserts_l, sublist_inserts_l. done.
    + by apply sublist_inserts_r.
    + apply sublist_inserts_l. by apply sublist_inserts_r.
  - intros item H. apply search_In in H as [H _]. unfold filterByCategory in H.
    destruct f as [|c'].
    + rewrite renderJournal_all, !filteredItems_no_query in H.
      unfold tagged in H. rewrite !in_app_iff, !in_map_iff in H.
      destruct H as [(x & E & H) | [(x & E & H) | (x & E & H)]];
        by injection E as <- <-.
    + rewrite renderJournal_only, filteredItems_no_query in H.
      unfold tagged in H. apply in_map_iff in H as (x & E & H).
      by injection E as <- <-.
Qed.

(** ** The journal view, group by group *)

Lemma journalGroups_all (m : MemoryStore) (q : string) :
  journalGroups m all q =
  [renderGroup m all q Category.development;
   renderGroup m all q Category.mindset;
   renderGroup m all q Category.struggles].
Proof. reflexivity. Qed.

Lemma journalGroups_only (m : MemoryStore) (c : Category) (q : string) :
  journalGroups m (only c) q = [renderGroup m (only c) q c].
Proof. by destruct c. Qed.

Lemma length_zero_eqb {A : Type} (l : list A) :
  Nat.eqb (length l) 0 = true <-> l = [].
Proof. by destruct l. Qed.

Lemma groupCards_renderGroup (m : MemoryStore) (f : JournalFilter) (q : string)
    (cat : Category) :
  groupCards cat (renderGroup m f q cat) = tagged cat (filteredItems m q cat).
Proof.
  unfold renderGroup. destruct (filteredItems m q cat) as [|x l] eqn:E; simpl.
  - by destruct (Js.truthy q && negb (isAll f) && isOnly f cat).
  - reflexivity.
Qed.

(** X7. The groups of the journal view carry exactly the cards of the
    search, in the same order; a group of cards is never empty, and it has
    a header exactly when all categories are shown or a search text is
    present. *)
Theorem journalGroups_cards (m : MemoryStore) (f : JournalFilter) (q : string) :
  flat_map (fun cat => groupCards cat (renderGroup m f q cat))
    (List.filter (shows f) journalCategories) = search m f q
  /\ (forall header cards,
        In (Group header cards) (journalGroups m f q) ->
        cards <> [] /\ header = isAll f || Js.truthy q).
Proof.
  split.
  - unfold search, renderJournal.
    induction (List.filter (shows f) journalCategories) as [|cat l IH];
      simpl; [done|].
    by rewrite IH, groupCards_renderGroup.
  - intros header cards H. unfold journalGroups in H.
    apply in_map_iff in H as (cat & E & _). unfold renderGroup in E.
    destruct (filteredItems m q cat) as [|x l]; simpl in E.
    + by destruct (Js.truthy q && negb (isAll f) && isOnly f cat).
    + by injection E as <- <-.
Qed.

Lemma In_NoMatches (m : MemoryStore) (f : JournalFilter) (q : string)
    (c : Category) :
  In (NoMatches c) (journalGroups m f q) <->
  f = only c /\ Js.truthy q = true /\ filteredItems m q c = [].
Proof.
  assert (Hg : forall f' cat,
    renderGroup m f' q cat = NoMatches c <->
    cat = c /\ f' = only c /\ Js.truthy q = true /\ filteredItems m q c = []).
  { intros f' cat. unfold renderGroup.
    destruct (filteredItems m q cat) as [|x l] eqn:E; simpl.
    - destruct (Js.truthy q) eqn:Hq; simpl;
        [|split; [done | by intros (_ & _ & ? & _)]].
      destruct f' as [|c']; simpl;
        [split; [done | by intros (_ & ? & _)]|].
      case_bool_decide as Hc; simpl.
      + subst c'. split.
        * intros [= ->]. by rewrite E.
        * by intros (-> & _).
      + split; [done|]. intros (-> & [= ->] & _). done.
    - split; [done|]. intros (-> & _ & _ & H). congruence. }
  destruct f as [|c'].
  - rewrite journalGroups_all. simpl. rewrite !Hg. split.
    + intros [H | [H | [H | []]]]; by destruct H as (_ & ? & _).
    + by intros (? & _).
  - rewrite journalGroups_only. simpl. rewrite Hg. split.
    + by intros [(_ & H) | []].
    + intros ([= ->] & Hq & Hf). by left.
Qed.

(** X8. The line "No matches in ..." is shown for a category exactly when
    that category is the selected tab, a search text is present and no
    item of the category matches it; it is then all the view shows, and
    the block "No memories found" comes with it exactly when no other
    category has a match either. With all categories shown and no match,
    no group is shown at all. *)
Theorem noMatches_shown_iff (m : MemoryStore) (f : JournalFilter) (q : string)
    (c : Category) :
  (In (NoMatches c) (journalGroups m f q) <->
   f = only c /\ Js.truthy q = true /\ filteredItems m q c = [])
  /\ (In (NoMatches c) (journalGroups m f q) ->
      journalGroups m f q = [NoMatches c] /\
      search m f q = [] /\
      (globalEmptyState m q = true <-> search m all q = []))
  /\ (f = all -> search m all q = [] ->
      Forall (fun g => g = NoGroup) (journalGroups m f q)).
Proof.
  split; [apply In_NoMatches|]. split.
  - intros H. apply In_NoMatches in H as (-> & Hq & Hf).
    rewrite journalGroups_only. unfold search.
    rewrite renderJournal_only, Hf. unfold renderGroup. rewrite Hf, Hq. simpl.
    rewrite bool_decide_eq_true_2 by done. repeat split; try done.
    + intros H. by apply globalEmptyState_no_card in H as [_ H].
    + intros H. by apply globalEmptyState_no_card.
  - intros -> H. unfold search in H. rewrite renderJournal_all in H.
    apply app_eq_nil in H as [Hd H]. apply app_eq_nil in H as [Hm Hs].
    apply map_eq_nil in Hd, Hm, Hs.
    rewrite journalGroups_all. unfold renderGroup. rewrite Hd, Hm, Hs. simpl.
    rewrite !andb_false_r. by repeat constructor.
Qed.

(** X9. Without a search text the journal shows no message at all: no
    "No matches in ..." line and no "No memories found" block, whatever
    the store holds; a category without records shows nothing, so the
    journal of an empty store is blank. *)
Theorem no_message_without_query (m : MemoryStore) (f : JournalFilter) :
  (forall c, ~ In (NoMatches c) (journalGroups m f EmptyString))
  /\ globalEmptyState m EmptyString = false
  /\ (forall c, get m c = [] -> renderGroup m f EmptyString c = NoGroup)
  /\ Forall (fun g => g = NoGroup) (journalGroups DEFAULT_MEMORY f EmptyString).
Proof.
  split; [|split; [|split]].
  - intros c H. apply In_NoMatches in H as (_ & H & _). done.
  - reflexivity.
  - intros c H. unfold renderGroup. by rewrite filteredItems_no_query, H.
  - destruct f as [|[]]; repeat constructor.
Qed.

(** ** The chat: requests and transcript *)

Lemma step_oneRequest (st st' : AppState) (ev : Event) :
  oneRequest st -> step st ev = Some st' -> oneRequest st'.
Proof.
  unfold oneRequest. intros H Hs.
  destruct ev as [t | uuid n | result uuid n | uuid n c d det | m];
    simpl in Hs.
  - by injection Hs as <-.
  - injection Hs as <-. unfold handleSendMessage.
    destruct (negb _ || isChatLoading st) eqn:E; [done|].
    apply orb_false_elim in E as [_ E]. simpl.
    destruct (pending st) as [|[t0 m0] [|p ps]]; simpl.
    + split; [done|]. eexists. rewrite last_snoc. eauto.
    + destruct H as [H _]. congruence.
    + done.
  - destruct (pending st) as [|[t0 m0] [|p ps]] eqn:Hp; [done| |done].
    injection Hs as <-. simpl. by rewrite Hp.
  - by injection Hs as <-.
  - by injection Hs as <-.
Qed.

Lemma reachable_oneRequest (st : AppState) : reachable st -> oneRequest st.
Proof.
  intros (now & sto & evs & Hr).
  assert (H0 : oneRequest (initialState now sto)) by done.
  revert H0 Hr. generalize (initialState now sto).
  induction evs as [|ev evs IH]; intros s0 H0 Hr; simpl in Hr.
  - by injection Hr as <-.
  - destruct (step s0 ev) as [s1|] eqn:E; [|done].
    eapply IH; [|exact Hr]. by eapply step_oneRequest.
Qed.

(** X10. At most one call of the backend is pending in any state the
    component can reach: one is pending exactly while [isChatLoading]
    holds, and it carries the text of the last message of the transcript,
    which is the message of the user it answers. *)
Theorem one_request_at_a_time (st : AppState) (H : reachable st) :
  length (pending st) <= 1
  /\ (isChatLoading st = true <-> pending st <> [])
  /\ (forall t m,
        In (t, m) (pending st) ->
        exists u, last (chatMessages st) = Some u /\ role u = user /\
                  text u = t).
Proof.
  apply reachable_oneRequest in H. unfold oneRequest in H.
  destruct (pending st) as [|[t0 m0] [|p ps]]; [| |done].
  - rewrite H. simpl. split; [lia|]. split; [|by intros t m []].
    split; [done | by intros X].
  - destruct H as [Hl Hu]. rewrite Hl. simpl. split; [lia|].
    split; [done|]. intros t m [[= <- <-] | []]. exact Hu.
Qed.

Lemma one_request_at_a_time_witness :
  reachable (sendUserMessage "hello" "u1" 1 (initialState 0 ∅)) /\
  length (pending (sendUserMessage "hello" "u1" 1 (initialState 0 ∅))) <= 1.
Proof.
  assert (R : reachable (sendUserMessage "hello" "u1" 1 (initialState 0 ∅))).
  { exists 0, ∅, [Typed "hello"; Send "u1" 1]. reflexivity. }
  split; [exact R|]. exact (proj1 (one_request_at_a_time _ R)).
Defined.

Lemma step_transcript (st st' : AppState) (ev : Event) :
  step st ev = Some st' -> chatMessages st `prefix_of` chatMessages st'.
Proof.
  intros Hs.
  destruct ev as [t | uuid n | result uuid n | uuid n c d det | m];
    simpl in Hs.
  - by injection Hs as <-.
  - injection Hs as <-. unfold handleSendMessage.
    destruct (negb _ || _); [done|]. by apply prefix_app_r.
  - destruct (pending st); [done|]. injection Hs as <-. by apply prefix_app_r.
  - by injection Hs as <-.
  - by injection Hs as <-.
Qed.

(** X21. A pending call keeps what it was issued with: while a response
    is awaited, nothing but the settling of the call changes the list of
    pending calls, so the backend is asked with the text and with the
    store of the moment of sending, whatever is typed, sent or saved before
    it answers. *)
Theorem pending_call_is_a_snapshot (st st' : AppState) (ev : Event)
    (Hw : AwaitingResponse st) (Hs : step st ev = Some st')
    (Hev : forall result uuid now, ev <> Settled result uuid now) :
  pending st' = pending st /\ AwaitingResponse st'.
Proof.
  unfold AwaitingResponse in *.
  destruct ev as [t | uuid n | result uuid n | uuid n c d det | m];
    simpl in Hs.
  - by injection Hs as <-.
  - injection Hs as <-. unfold handleSendMessage.
    by rewrite Hw, orb_true_r.
  - by destruct (Hev result uuid n).
  - by injection Hs as <-.
  - by injection Hs as <-.
Qed.

Lemma pending_call_is_a_snapshot_witness :
  AwaitingResponse awaitingState /\
  pending (onSave "1" "t" Category.mindset "Calm" [] awaitingState) =
  [("hello", sampleStore)].
Proof.
  split; [reflexivity|].
  refine (proj1 (pending_call_is_a_snapshot awaitingState _
            (Saved "1" "t" Category.mindset "Calm" []) eq_refl eq_refl _)).
  discriminate.
Defined.

(** X11. The transcript is append-only: whatever happens (typing, sending,
    a call settling, saving or loading records), the former transcript is
    the beginning of the new one, so no message is ever removed, changed
    or reordered. *)
Theorem transcript_append_only (st st' : AppState) (evs : list Event)
    (Hrun : run st evs = Some st') :
  chatMessages st `prefix_of` chatMessages st'
  /\ length (chatMessages st) <= length (chatMessages st').
Proof.
  assert (H : chatMessages st `prefix_of` chatMessages st').
  { revert st Hrun. induction evs as [|ev evs IH]; intros st Hrun;
      simpl in Hrun.
    - by injection Hrun as <-.
    - destruct (step st ev) as [st1|] eqn:E; [|done].
      etrans; [by eapply step_transcript | by apply IH]. }
  split; [done | by apply prefix_length].
Qed.

Lemma transcript_append_only_witness :
  chatMessages (initialState 0 ∅) `prefix_of`
  chatMessages
    (handleSendMessage_settled (Rejected "offline") "u3" 3
       (sendUserMessage "hello" "u1" 1 (initialState 0 ∅))).
Proof.
  exact (proj1 (transcript_append_only (initialState 0 ∅) _ sampleEvents
                  eq_refl)).
Defined.

(** ** Start-up, theme and permissions *)

Lemma loadTheme_returns (ls : gmap string string) (cells : Cells) :
  exists c, loadTheme ls cells = Returns c /\
            memoryCell c = memoryCell cells /\
            permissionsCell c = permissionsCell cells /\
            themeCell c =
              match ls !! "lucy_theme" with
              | Some t => if Js.truthy t then t else themeCell cells
              | None => themeCell cells
              end.
Proof.
  unfold loadTheme. destruct (ls !! "lucy_theme") as [t|]; [|by eexists].
  destruct (Js.truthy t); by eexists.
Qed.

Lemma readable_or_not (ls : gmap string string) (key : string) :
  readable ls key \/
  exists s, ls !! key = Some s /\ Js.truthy s = true /\ JSON.parse s = None.
Proof.
  unfold readable. destruct (ls !! key) as [s|]; [|by left].
  destruct (Js.truthy s) eqn:Ht; [|by left].
  destruct (JSON.parse s) as [v|] eqn:Hp; [left; by eexists | right; eauto].
Qed.

Lemma unreadable_not_readable (ls : gmap string string) (key s : string) :
  ls !! key = Some s -> Js.truthy s = true -> JSON.parse s = None ->
  ~ readable ls key.
Proof.
  unfold readable. intros -> Ht Hp H. destruct (H Ht) as [v Hv]. congruence.
Qed.

Lemma loadMemory_outcome (ls : gmap string string) (cells : Cells) :
  (readable ls "lucy_memory" /\
   exists c, loadMemory ls cells = Returns c /\
             themeCell c = themeCell cells) \/
  (~ readable ls "lucy_memory" /\ loadMemory ls cells = Raises SyntaxError).
Proof.
  destruct (readable_or_not ls "lucy_memory") as [H | (s & Hs & Ht & Hp)].
  - left. split; [done|]. unfold readable, loadMemory in *.
    destruct (ls !! "lucy_memory") as [s|]; [|by eexists].
    destruct (Js.truthy s); [|by eexists].
    destruct (H eq_refl) as [v ->]. by eexists.
  - right. split; [by eapply unreadable_not_readable|].
    unfold loadMemory. by rewrite Hs, Ht, Hp.
Qed.

Lemma loadPermissions_outcome (ls : gmap string string) (cells : Cells) :
  (readable ls "lucy_permissions" /\
   exists c, loadPermissions ls cells = Returns c /\
             themeCell c = themeCell cells) \/
  (~ readable ls "lucy_permissions" /\
   loadPermissions ls cells = Raises SyntaxError).
Proof.
  destruct (readable_or_not ls "lucy_permissions") as [H | (s & Hs & Ht & Hp)].
  - left. split; [done|]. unfold readable, loadPermissions in *.
    destruct (ls !! "lucy_permissions") as [s|]; [|by eexists].
    destruct (Js.truthy s); [|by eexists].
    destruct (H eq_refl) as [v ->]. by eexists.
  - right. split; [by eapply unreadable_not_readable|].
    unfold loadPermissions. by rewrite Hs, Ht, Hp.
Qed.

Lemma persistenceEffect_outcome (ls : gmap string string) (cells : Cells) :
  (readable ls "lucy_memory" /\ readable ls "lucy_permissions" /\
   exists c, persistenceEffect ls cells = Returns c /\
             themeCell c =
               match ls !! "lucy_theme" with
               | Some t => if Js.truthy t then t else themeCell cells
               | None => themeCell cells
               end) \/
  (~ (readable ls "lucy_memory" /\ readable ls "lucy_permissions") /\
   persistenceEffect ls cells = Raises SyntaxError).
Proof.
  unfold persistenceEffect.
  destruct (loadMemory_outcome ls cells) as [(Hm & c1 & -> & H1) | (Hm & ->)];
    [|right; split; [by intros [? _] | done]].
  simpl. destruct (loadTheme_returns ls c1) as (c2 & -> & _ & _ & Ht). simpl.
  destruct (loadPermissions_outcome ls c2)
    as [(Hp & c3 & -> & Hc) | (Hp & ->)];
    [|right; split; [by intros [_ ?] | done]].
  left. split; [done|]. split; [done|]. exists c3. split; [done|].
  by rewrite Hc, Ht, H1.
Qed.

(** X12. The effect run at start-up returns exactly when the text under
    the memory key and the text under the permissions key are each
    absent, empty or well-formed JSON; otherwise it raises [SyntaxError],
    so that ill-formed permissions discard a memory and a theme that were
    read before them. A stored theme never makes it raise, and any
    non-empty stored theme is adopted as it is. *)
Theorem mount_effect_outcome (ls : gmap string string) (cells : Cells) :
  ((exists c, persistenceEffect ls cells = Returns c) <->
   readable ls "lucy_memory" /\ readable ls "lucy_permissions")
  /\ (persistenceEffect ls cells = Raises SyntaxError <->
      ~ (readable ls "lucy_memory" /\ readable ls "lucy_permissions"))
  /\ (forall c,
        persistenceEffect ls cells = Returns c ->
        themeCell c =
          match ls !! "lucy_theme" with
          | Some t => if Js.truthy t then t else themeCell cells
          | None => themeCell cells
          end).
Proof.
  destruct (persistenceEffect_outcome ls cells)
    as [(Hm & Hp & c & -> & Ht) | (Hn & ->)].
  - split; [split; [done | by eexists]|]. split; [split; [done | tauto]|].
    by intros c' [= <-].
  - split; [split; [by intros [? ?] | done]|]. by split.
Qed.

Lemma toggleTheme_light_or_dark (t : string) :
  toggleTheme t = "light" \/ toggleTheme t = "dark".
Proof. unfold toggleTheme. destruct (String.eqb t "light"); auto. Qed.

(** X13. After the theme switch is used the theme is "dark" if it was
    "light" and "light" in every other case, also for a stored theme that
    was neither; the new theme is stored, and it is the theme the next
    start reads. *)
Theorem theme_toggle_persisted (app app' : App)
    (H : uiStep app ToggleTheme = Some app') :
  theme (shell app') = toggleTheme (theme (shell app))
  /\ (theme (shell app') = "dark" <-> theme (shell app) = "light")
  /\ (theme (shell app') = "light" \/ theme (shell app') = "dark")
  /\ storage app' !! "lucy_theme" = Some (theme (shell app'))
  /\ (forall cells,
        loadTheme (storage app') cells =
        Returns {| memoryCell := memoryCell cells;
                   themeCell := theme (shell app');
                   permissionsCell := permissionsCell cells |}).
Proof.
  simpl in H. destruct (viewing AppId.settings app); [|done].
  injection H as <-. simpl.
  assert (Hs : storage
    (themeEffect (inShell (fun sh => setTheme (toggleTheme (theme sh)) sh) app))
    !! "lucy_theme" = Some (toggleTheme (theme (shell app)))).
  { unfold storage. simpl. apply lookup_insert_eq. }
  split; [done|]. split.
  - unfold toggleTheme. destruct (String.eqb_spec (theme (shell app)) "light");
      split; done.
  - split; [apply toggleTheme_light_or_dark|]. split; [exact Hs|].
    intros cells. unfold loadTheme. rewrite Hs.
    by destruct (toggleTheme_light_or_dark (theme (shell app))) as [-> | ->].
Qed.

Lemma theme_toggle_persisted_witness :
  theme (shell (themeEffect
    (inShell (fun sh => setTheme (toggleTheme (theme sh)) sh)
       (inShell (setActiveApp AppId.settings) (initialApp 0 ∅))))) = "dark".
Proof.
  exact (proj1 (theme_toggle_persisted
                  (inShell (setActiveApp AppId.settings) (initialApp 0 ∅)) _
                  eq_refl)).
Defined.

Lemma canonical_permissionsJson (p : Permissions) :
  JSON.canonical (permissionsJson p).
Proof.
  split; [apply (bool_decide_unpack _); reflexivity|].
  exact (conj I (conj I (conj I (conj I I)))).
Qed.

Lemma asPermissions_permissionsJson (p : Permissions) :
  asPermissions (permissionsJson p) = Some p.
Proof. by destruct p. Qed.

Lemma loadPermissions_stored (ls : gmap string string) (p : Permissions)
    (cells : Cells) :
  ls !! "lucy_permissions" = Some (JSON.stringify (permissionsJson p)) ->
  loadPermissions ls cells =
  Returns {| memoryCell := memoryCell cells; themeCell := themeCell cells;
             permissionsCell := permissionsJson p |}.
Proof.
  intros H. unfold loadPermissions. rewrite H.
  change (Js.truthy (JSON.stringify (permissionsJson p))) with true.
  by rewrite (parse_stringify _ (canonical_permissionsJson p)).
Qed.

Lemma getFlag_setFlag (p : Permissions) (key k : PermissionKey) (b : bool) :
  getFlag (setFlag p key b) k = if decide (k = key) then b else getFlag p k.
Proof. by destruct key, k. Qed.

(** X14. [updatePermissions] flips the flag it is called for and no other,
    so that two calls restore the permissions; what it stores is read at
    the next start as the permissions it has set; and the browser is asked
    for the microphone exactly when the microphone flag has just been
    switched on. *)
Theorem updatePermissions_flips_and_persists (key : PermissionKey) (app : App) :
  let app' := updatePermissions key app in
  (forall k,
     getFlag (permissions (shell app')) k =
     if decide (k = key) then negb (getFlag (permissions (shell app)) k)
     else getFlag (permissions (shell app)) k)
  /\ permissions (shell (updatePermissions key app')) = permissions (shell app)
  /\ (forall cells,
        loadPermissions (storage app') cells =
        Returns {| memoryCell := memoryCell cells; themeCell := themeCell cells;
                   permissionsCell := permissionsJson (permissions (shell app')) |})
  /\ asPermissions (permissionsJson (permissions (shell app'))) =
       Some (permissions (shell app'))
  /\ micRequests app' =
       (if bool_decide (key = PermissionKey.mic) &&
           negb (mic (permissions (shell app)))
        then S (micRequests app) else micRequests app).
Proof.
  intros app'. subst app'. split; [|split; [|split; [|split]]].
  - intros k. simpl. rewrite getFlag_setFlag. by destruct (decide (k = key)) as [->|].
  - simpl. destruct (permissions (shell app)) as [[] [] [] []], key; reflexivity.
  - intros cells. apply loadPermissions_stored. unfold storage. simpl.
    apply lookup_insert_eq.
  - apply asPermissions_permissionsJson.
  - simpl. by destruct key.
Qed.

(** X15. A refusal of the microphone by the browser is not stored: after
    the microphone is switched on and the browser refuses, the flag is off
    in the state, but the stored permissions still have it on, and that is
    what the next start reads. *)
Theorem mic_denial_not_persisted (app : App)
    (H : mic (permissions (shell app)) = false) :
  let app1 := updatePermissions PermissionKey.mic app in
  let app2 := micDenied app1 in
  uiStep app1 MicDenied = Some app2
  /\ mic (permissions (shell app2)) = false
  /\ permissions (shell app2) = permissions (shell app)
  /\ (forall cells,
        exists p,
          loadPermissions (storage app2) cells =
          Returns {| memoryCell := memoryCell cells;
                     themeCell := themeCell cells;
                     permissionsCell := permissionsJson p |}
          /\ mic p = true).
Proof.
  intros app1 app2. subst app1 app2. split; [|split; [|split]].
  - simpl. by rewrite H.
  - reflexivity.
  - simpl. destruct (permissions (shell app)) as [m l a u]. simpl in *.
    by subst m.
  - intros cells.
    exists (setFlag (permissions (shell app)) PermissionKey.mic true). split.
    + apply loadPermissions_stored. unfold storage. simpl.
      rewrite H. apply lookup_insert_eq.
    + reflexivity.
Qed.

Lemma mic_denial_not_persisted_witness :
  mic (permissions (shell (initialApp 0 ∅))) = false /\
  uiRun (inShell (setActiveApp AppId.settings) (initialApp 0 ∅))
    [TogglePermission PermissionKey.mic; MicDenied] =
  Some (micDenied (updatePermissions PermissionKey.mic
          (inShell (setActiveApp AppId.settings) (initialApp 0 ∅)))) /\
  mic (permissions (shell
    (micDenied (updatePermissions PermissionKey.mic (initialApp 0 ∅))))) = false.
Proof.
  split; [reflexivity|]. split; [reflexivity|].
  exact (proj1 (proj2 (mic_denial_not_persisted (initialApp 0 ∅) eq_refl))).
Defined.

(** ** What the controls of the views can and cannot change *)

Lemma step_localStorage (st st' : AppState) (ev : Event) :
  step st ev = Some st' ->
  (forall k, k <> "lucy_memory" -> localStorage st' !! k = localStorage st !! k)
  /\ (isSaved ev = false -> localStorage st' = localStorage st).
Proof.
  intros Hs.
  destruct ev as [t | uuid n | result uuid n | uuid n c d det | m];
    simpl in Hs.
  - by injection Hs as <-.
  - injection Hs as <-. unfold handleSendMessage. by destruct (negb _ || _).
  - destruct (pending st); [done|]. by injection Hs as <-.
  - injection Hs as <-. split; [|done]. intros k Hk. simpl.
    by rewrite lookup_insert_ne.
  - by injection Hs as <-.
Qed.

(** Start-up leaves the storage as it was but for the theme, which it
    stores; the theme it adopts is the stored one, if there is one. *)
Lemma mount_storage (now : nat) (ls : gmap string string) (app0 : App) :
  mount now ls = Some app0 ->
  storage app0 = <["lucy_theme" := theme (shell app0)]> ls
  /\ theme (shell app0) =
       match ls !! "lucy_theme" with
       | Some t => if Js.truthy t then t else "light"
       | None => "light"
       end.
Proof.
  unfold mount.
  destruct (persistenceEffect_outcome ls initialCells)
    as [(_ & _ & cells & -> & Ht) | (_ & ->)]; [|done].
  destruct (asMemoryStore (memoryCell cells)) as [m|]; [|done]. simpl.
  destruct (asPermissions (permissionsCell cells)) as [p|]; [|done]. simpl.
  simpl in Ht. rewrite <- Ht.
  destruct (String.eqb_spec (themeCell cells) "light") as [E | E];
    intros [= <-]; unfold storage; simpl; split; try done.
  - by rewrite E.
  - by rewrite insert_insert_eq.
Qed.

Lemma uiStep_themeStored (app app' : App) (ev : UiEvent) :
  uiStep app ev = Some app' -> themeStored app -> themeStored app'.
Proof.
  unfold themeStored, storage. intros H Hs.
  destruct ev; simpl in H;
    repeat match type of H with
           | (if ?b then _ else _) = Some _ => destruct b; [|try done]
           | None = Some _ => done
           | match micRequests ?a with _ => _ end = Some _ =>
               destruct (micRequests a); [done|]
           end;
    try (injection H as <-; simpl; done).
  - injection H as <-. simpl. apply lookup_insert_eq.
  - injection H as <-. simpl. by rewrite lookup_insert_ne.
  - destruct (step (core app) ev) as [st'|] eqn:E; [|done].
    injection H as <-. simpl.
    destruct (step_localStorage _ _ _ E) as [Hk _]. by rewrite Hk.
Qed.

Lemma uiRun_themeStored (evs : list UiEvent) (app app' : App) :
  uiRun app evs = Some app' -> themeStored app -> themeStored app'.
Proof.
  revert app. induction evs as [|ev evs IH]; intros app H Hs; simpl in H.
  - by injection H as <-.
  - destruct (uiStep app ev) as [app1|] eqn:E; [|done].
    apply (IH app1 H). by eapply uiStep_themeStored.
Qed.

Lemma uiStep_storage (app app' : App) (ev : UiEvent) :
  uiStep app ev = Some app' ->
  (forall k,
     k <> "lucy_memory" -> k <> "lucy_theme" -> k <> "lucy_permissions" ->
     storage app' !! k = storage app !! k)
  /\ ((forall ev', ev = Core ev' -> isSaved ev' = false) ->
      storage app' !! "lucy_memory" = storage app !! "lucy_memory" /\
      load (storage app') = load (storage app))
  /\ (ev <> ToggleTheme ->
      storage app' !! "lucy_theme" = storage app !! "lucy_theme")
  /\ ((forall key, ev <> TogglePermission key) ->
      storage app' !! "lucy_permissions" = storage app !! "lucy_permissions").
Proof.
  intros H.
  assert (Hload : forall s1 s2 : gmap string string,
            s1 !! "lucy_memory" = s2 !! "lucy_memory" -> load s1 = load s2).
  { intros s1 s2 E. by rewrite !load_unfold, E. }
  unfold storage.
  destruct ev; simpl in H;
    repeat match type of H with
           | (if ?b then _ else _) = Some _ => destruct b; [|try done]
           | None = Some _ => done
           | match micRequests ?a with _ => _ end = Some _ =>
               destruct (micRequests a); [done|]
           end;
    try (injection H as <-; simpl; by repeat split).
  - injection H as <-. simpl. split; [|split; [|split]].
    + intros k _ Hk _. by rewrite lookup_insert_ne.
    + intros _. split; [by rewrite lookup_insert_ne|].
      apply Hload. by rewrite lookup_insert_ne.
    + done.
    + intros _. by rewrite lookup_insert_ne.
  - injection H as <-. simpl. split; [|split; [|split]].
    + intros k _ _ Hk. by rewrite lookup_insert_ne.
    + intros _. split; [by rewrite lookup_insert_ne|].
      apply Hload. by rewrite lookup_insert_ne.
    + intros _. by rewrite lookup_insert_ne.
    + intros Hne. by destruct (Hne key).
  - destruct (step (core app) ev) as [st'|] eqn:E; [|done].
    injection H as <-. simpl.
    destruct (step_localStorage _ _ _ E) as [Hk Hs].
    split; [intros; by apply Hk|]. split.
    + intros Hev. rewrite (Hs (Hev _ eq_refl)). done.
    + split; intros; by apply Hk.
Qed.

(** X16. Each key of the storage has its own writer. Start-up writes the
    theme, and nothing else: the component starts with the stored theme,
    or with "light" when none or an empty one is stored, and stores it.
    From then on the stored theme is the theme in use. After start-up
    the stored theme changes only when the theme is switched, the stored
    memory only when a record is saved, the stored permissions only when
    a permission is switched, and no other key is ever written. In
    particular what [load] reads at the next start is untouched by
    everything but a save. *)
Theorem storage_keys_independent (now : nat) (ls : gmap string string)
    (app0 app app' : App) (evs : list UiEvent) (ev : UiEvent)
    (Hm : mount now ls = Some app0)
    (Hr : uiRun app0 evs = Some app)
    (H : uiStep app ev = Some app') :
  storage app0 = <["lucy_theme" := theme (shell app0)]> ls
  /\ theme (shell app0) =
       match ls !! "lucy_theme" with
       | Some t => if Js.truthy t then t else "light"
       | None => "light"
       end
  /\ themeStored app
  /\ themeStored app'
  /\ (forall k,
        k <> "lucy_memory" -> k <> "lucy_theme" -> k <> "lucy_permissions" ->
        storage app' !! k = storage app !! k)
  /\ ((forall ev', ev = Core ev' -> isSaved ev' = false) ->
      storage app' !! "lucy_memory" = storage app !! "lucy_memory" /\
      load (storage app') = load (storage app))
  /\ (ev <> ToggleTheme ->
      storage app' !! "lucy_theme" = storage app !! "lucy_theme")
  /\ ((forall key, ev <> TogglePermission key) ->
      storage app' !! "lucy_permissions" = storage app !! "lucy_permissions").
Proof.
  destruct (mount_storage _ _ _ Hm) as [Hs Ht].
  assert (H0 : themeStored app0).
  { unfold themeStored. rewrite Hs. apply lookup_insert_eq. }
  assert (H1 : themeStored app) by by eapply uiRun_themeStored.
  split; [exact Hs|]. split; [exact Ht|]. split; [exact H1|].
  split; [by eapply uiStep_themeStored|].
  by apply uiStep_storage.
Qed.

Lemma storage_keys_independent_witness :
  mount 0 darkStorage = Some darkApp /\
  uiRun darkApp settingsEvents = Some settingsApp /\
  theme (shell darkApp) = "dark" /\
  storage darkApp = <["lucy_theme" := theme (shell darkApp)]> darkStorage /\
  themeStored settingsApp /\
  load (storage (updatePermissions PermissionKey.activity settingsApp)) =
  load (storage settingsApp).
Proof.
  assert (Hm : mount 0 darkStorage = Some darkApp) by (vm_compute; reflexivity).
  assert (Hr : uiRun darkApp settingsEvents = Some settingsApp)
    by (vm_compute; reflexivity).
  destruct (storage_keys_independent 0 darkStorage darkApp settingsApp
              (updatePermissions PermissionKey.activity settingsApp)
              settingsEvents (TogglePermission PermissionKey.activity)
              Hm Hr eq_refl)
    as (Hs & Ht & H1 & _ & _ & Hl & _).
  split; [exact Hm|]. split; [exact Hr|]. split; [exact Ht|].
  split; [exact Hs|]. split; [exact H1|].
  apply Hl. discriminate.
Defined.

Lemma uiStep_shell (app app' : App) (ev : UiEvent) :
  uiStep app ev = Some app' ->
  location (permissions (shell app')) = location (permissions (shell app))
  /\ autoUpdate (permissions (shell app')) = autoUpdate (permissions (shell app))
  /\ (editsSearch ev = false ->
      journalSearchQuery (shell app') = journalSearchQuery (shell app))
  /\ ((liveListening (shell app) = true ->
       mic (permissions (shell app)) = false ->
       liveListening (shell app') = true)).
Proof.
  intros H.
  destruct ev; simpl in H;
    repeat match type of H with
           | (if ?b then _ else _) = Some _ =>
               destruct b eqn:Hguard; [|try done]
           | None = Some _ => done
           | match micRequests ?a with _ => _ end = Some _ =>
               destruct (micRequests a); [done|]
           | match step ?a ?b with _ => _ end = Some _ =>
               destruct (step a b); [|done]
           end;
    injection H as <-; simpl; try (by repeat split).
  - apply andb_prop in Hguard as [_ Hk].
    destruct key; try done; by repeat split.
  - repeat split; try done. intros _ Hm.
    apply andb_prop in Hguard as [_ Hmic]. congruence.
Qed.

(** X17. No control of the views changes the location or the
    auto-update permission: whatever the user does, the two flags keep the
    values they had when the component started. *)
Theorem location_and_autoUpdate_untouched (app app' : App)
    (evs : list UiEvent) (H : uiRun app evs = Some app') :
  location (permissions (shell app')) = location (permissions (shell app))
  /\ autoUpdate (permissions (shell app')) =
       autoUpdate (permissions (shell app)).
Proof.
  revert app H. induction evs as [|ev evs IH]; intros app H; simpl in H.
  - by injection H as <-.
  - destruct (uiStep app ev) as [app1|] eqn:E; [|done].
    destruct (uiStep_shell _ _ _ E) as (Hl & Ha & _).
    destruct (IH _ H) as [Hl' Ha']. split; congruence.
Qed.

Lemma location_and_autoUpdate_untouched_witness :
  uiRun (initialApp 0 ∅) listeningEvents = Some listeningApp /\
  location (permissions (shell listeningApp)) = false.
Proof.
  assert (R : uiRun (initialApp 0 ∅) listeningEvents = Some listeningApp)
    by (vm_compute; reflexivity).
  split; [exact R|].
  exact (proj1 (location_and_autoUpdate_untouched _ _ _ R)).
Defined.

(** X18. The search text survives navigation: only typing in the search
    field or clearing it changes it, so a journal opened again, from any
    icon of the home screen, shows the results of the former search in
    the newly chosen category and not the whole category. *)
Theorem search_text_survives_navigation (app app' : App) (evs : list UiEvent)
    (H : uiRun app evs = Some app')
    (Hevs : forallb (fun ev => negb (editsSearch ev)) evs = true) :
  journalSearchQuery (shell app') = journalSearchQuery (shell app)
  /\ journalCards app' =
       search (memory (core app')) (journalFilter (shell app'))
         (journalSearchQuery (shell app)).
Proof.
  assert (E : journalSearchQuery (shell app') = journalSearchQuery (shell app)).
  { revert app H. induction evs as [|ev evs IH]; intros app H; simpl in H.
    - by injection H as <-.
    - simpl in Hevs. apply andb_prop in Hevs as [He Hevs].
      apply negb_true_iff in He.
      destruct (uiStep app ev) as [app1|] eqn:E; [|done].
      destruct (uiStep_shell _ _ _ E) as (_ & _ & Hq & _).
      rewrite (IH Hevs _ H). by apply Hq. }
  split; [exact E|]. unfold journalCards, search. by rewrite E.
Qed.

Lemma search_text_survives_navigation_witness :
  journalCards
    (inShell (setActiveApp AppId.journal)
       (inShell (setJournalFilter (only Category.development))
          (inShell (setJournalSearchQuery "morning") (initialApp 0 ∅)))) =
  search DEFAULT_MEMORY (only Category.development) "morning".
Proof.
  exact (proj2 (search_text_survives_navigation
    (inShell (setJournalSearchQuery "morning") (initialApp 0 ∅)) _
    [LaunchJournal (only Category.development)] eq_refl eq_refl)).
Defined.

(** X19. Listening outlives the permission: in a state where listening is
    on and the microphone permission is off, the Lucy Live view still
    pulses, says that the permission is required and offers no button, the
    listening switch cannot be used, and every event leaves listening on;
    it can be stopped only after the permission is given again. *)
Theorem listening_outlives_permission (app : App)
    (Hl : liveListening (shell app) = true)
    (Hm : mic (permissions (shell app)) = false) :
  renderLiveApp (shell app) =
    {| pulsing := true;
       liveText := "Microphone permission required. Go to Settings.";
       liveButton := None |}
  /\ uiStep app ToggleListening = None
  /\ (forall ev app',
        uiStep app ev = Some app' -> liveListening (shell app') = true).
Proof.
  split; [|split].
  - unfold renderLiveApp. by rewrite Hl, Hm.
  - simpl. by rewrite Hm, andb_false_r.
  - intros ev app' H. destruct (uiStep_shell _ _ _ H) as (_ & _ & _ & Hk).
    by apply Hk.
Qed.

Lemma listening_outlives_permission_witness :
  uiRun (initialApp 0 ∅) listeningEvents = Some listeningApp /\
  pulsing (renderLiveApp (shell listeningApp)) = true /\
  liveButton (renderLiveApp (shell listeningApp)) = None.
Proof.
  split; [vm_compute; reflexivity|].
  pose proof (proj1 (listening_outlives_permission listeningApp
                       eq_refl eq_refl)) as E.
  rewrite E. split; reflexivity.
Defined.

(** ** The clock *)

Lemma padStart_two_digits (n : nat) :
  n < 60 ->
  padStart 2 "0" (toString n) =
  String (ascii_of_nat (48 + n / 10))
    (String (ascii_of_nat (48 + n mod 10)) EmptyString).
Proof.
  intros H. do 60 (destruct n as [|n]; [reflexivity|]). lia.
Qed.

(** X20. The clock always shows two digits for the hours and two for the
    minutes: for hours below 24 and minutes below 60 its text is the tens
    and the units of the hours, a colon, and the tens and the units of the
    minutes, five characters in all. *)
Theorem clockText_two_digits (hours minutes : nat)
    (Hh : hours < 24) (Hm : minutes < 60) :
  clockText hours minutes =
    String (ascii_of_nat (48 + hours / 10))
      (String (ascii_of_nat (48 + hours mod 10))
         (String ":"
            (String (ascii_of_nat (48 + minutes / 10))
               (String (ascii_of_nat (48 + minutes mod 10)) EmptyString))))
  /\ String.length (clockText hours minutes) = 5.
Proof.
  unfold clockText.
  rewrite (padStart_two_digits hours), (padStart_two_digits minutes) by lia.
  split; reflexivity.
Qed.

Lemma clockText_two_digits_witness :
  clockText 7 5 = "07:05".
Proof. exact (proj1 (clockText_two_digits 7 5 ltac:(lia) ltac:(lia))). Defined.
